(** * The Ants vs. SomeBees GUI (cs61a/ants/ants_gui.py)

    A shallow embedding of the view layer: the tracker [self.images], the
    reconciler [_update_places], the click dispatcher [_interpret_click],
    the per-turn loop of [strategy] and the two leaf/dart animations.

    Conventions of the embedding.
    - Python objects used as dictionary keys (insects) hash by identity; an
      insect is either an Ant or a Bee object, so a key is [AntKey n] or
      [BeeKey n], [n] being the identity of the object.
    - [colony.places] is an ordered dictionary keyed by [place.name]; it is
      the list [places] in iteration order.  A place object is identified
      by its name, so [place.exit] is the name of the exit (or [None]) and
      the test [other_place.exit is place] compares names.
    - Mutation persists when an exception is raised: a computation maps a
      GUI state to a result (a value or the exception) and the state
      reached.
    - The canvas is the rendering backend: it hands out fresh shape ids and
      its commands are recorded in the order they are issued.
    - Times in seconds are rationals. *)

From Stdlib Require Import ZArith QArith Lqa.
From stdpp Require Import base gmap strings list pretty.

#[local] Set Warnings "-clear-no-such-hyp".

(** ** Module constants *)

Definition STRATEGY_SECONDS : Q := 3.

Definition INSECT_FILES : list (string * string) :=
  [ ("Worker", "img/ant_harvester.gif");
    ("Thrower", "img/ant_thrower.gif");
    ("Long", "img/ant_longthrower.gif");
    ("Short", "img/ant_shortthrower.gif");
    ("Harvester", "img/ant_harvester.gif");
    ("Fire", "img/ant_fire.gif");
    ("Bodyguard", "img/ant_weeds.gif");
    ("Hungry", "img/ant_hungry.gif");
    ("Slow", "img/ant_freeze.gif");
    ("Stun", "img/ant_stun.gif");
    ("Ninja", "img/ant_ninja.gif");
    ("Wall", "img/ant_wall.gif");
    ("Scuba", "img/ant_scuba.gif");
    ("Queen", "img/ant_queen.gif");
    ("Bee", "img/bee.gif");
    ("Remover", "img/remover.gif") ].

Definition TUNNEL_FILE : string := "img/tunnel.gif".
Definition ANT_IMAGE_WIDTH : Z := 66.
Definition ANT_IMAGE_HEIGHT : Z := 71.
Definition BEE_IMAGE_WIDTH : Z := 58.
Definition PANEL_PADDING : Z * Z := (2, 4)%Z.
Definition PLACE_PADDING : Z * Z := (10, 10)%Z.
Definition PLACE_POS : Z * Z := (40, 180)%Z.
Definition PANEL_POS : Z * Z := (20, 40)%Z.
Definition CRYPT : Z := 650.
Definition MESSAGE_POS : Z * Z := (120, 20)%Z.
Definition HIVE_HEIGHT : Z := 300.
Definition PLACE_MARGIN : Z := 10.

(** ** The model's data, as the GUI reads it *)

Definition shape := nat.
Definition point : Type := Z * Z.
(** A point with float coordinates, as the animations compute them. *)
Definition fpoint : Type := Q * Q.

Inductive insect := AntKey (n : nat) | BeeKey (n : nat).

#[global] Instance insect_eq_dec : EqDecision insect.
Proof. solve_decision. Defined.

#[global] Instance insect_countable : Countable insect.
Proof.
  refine (inj_countable'
            (λ i, match i with AntKey n => inl n | BeeKey n => inr n end)
            (λ s, match s with inl n => AntKey n | inr n => BeeKey n end) _).
  by intros [].
Defined.

(** An ant: [ant_container] is the truth value of
    [hasattr(a, 'container') and a.container], [ant_ant] is [a.ant]. *)
#[warnings="-register-all"]
Inductive Ant := mkAnt {
  ant_id : nat;
  ant_name : string;
  ant_container : bool;
  ant_ant : option Ant }.

Record Bee := mkBee { bee_id : nat; bee_name : string }.

Record Place := mkPlace {
  place_name : string;
  place_exit : option string;
  place_ant : option Ant;
  place_bees : list Bee }.

Record Colony := mkColony {
  places : list Place;
  hive : Place;
  food : Z;
  time : Z;
  ant_types : list (string * Z) }.

(** The insect object handed to [_draw_insect]: its identity and [name]. *)
Record Insect := mkInsect { insect_key : insect; insect_name : string }.

Definition ant_key (a : Ant) : insect := AntKey (ant_id a).
Definition bee_key (b : Bee) : insect := BeeKey (bee_id b).
Definition of_ant (a : Ant) : Insect := mkInsect (ant_key a) (ant_name a).
Definition of_bee (b : Bee) : Insect := mkInsect (bee_key b) (bee_name b).

(** [place.ant.ant] when [place.ant] is a container, the passenger. *)
Definition passenger (a : Ant) : option Ant :=
  if ant_container a then ant_ant a else None.

Fixpoint assoc {V} (k : string) (l : list (string * V)) : option V :=
  match l with
  | [] => None
  | (k', v) :: l' => if decide (k = k') then Some v else assoc k l'
  end.

(** [colony.places[name]] *)
Definition place_named (colony : Colony) (name : string) : option Place :=
  List.find (λ p, bool_decide (place_name p = name)) (places colony).

(** ** Exceptions, printed values, canvas commands *)

Inductive pykey := key_str (s : string) | key_insect (i : insect).

Inductive exn :=
| KeyError (k : pykey)
| AttributeError (attr : string)
| ZeroDivisionError
| ModelError (msg : string).

Inductive result (A : Type) :=
| Ok (a : A)
| Raise (e : exn).
Arguments Ok {A} a.
Arguments Raise {A} e.

Inductive printed := out_str (s : string) | out_exn (e : exn).

Inductive Op :=
| OpDrawText (id : shape) (text : string) (pos : point) (anchor : option string)
| OpDrawImage (id : shape) (pos : point) (file : string) (behind : shape)
| OpDrawRectangle (id : shape) (pos : point) (width height : Z) (fill_color : string)
| OpSlideShape (id : shape) (pos : point) (duration : Q)
| OpEditText (id : shape) (text : string)
| OpItemConfigure (id : shape) (fill : string)
| OpClear (id : shape)
| OpWaitForClick (seconds : option Q)
| OpDrawPolygon (id : shape) (points : list fpoint) (color fill_color : string) (smooth : Z)
| OpAnimateShape (id : shape) (duration : Q)
| OpCoords (id : shape) (points : list fpoint)
(** [canvas._canvas.after(ms, lambda: canvas.clear(id))] *)
| OpAfterClear (ms : Z) (id : shape).

Record Canvas := mkCanvas {
  next_id : shape;
  ops : list Op }.

(** A click rectangle [(pos, width, height, frame, on_click)]; the two
    closures named [on_click] are told apart by a tag carrying the [name]
    they captured. *)
Inductive Callback :=
| select_ant_type (name : string)
| click_place (name : string).

Record ClickRect := mkRect {
  rect_corner : point;
  rect_width : Z;
  rect_height : Z;
  rect_frame : shape;
  rect_on_click : Callback }.

(** ** The state of an [AntsGUI] object *)

Record GUI := mkGUI {
  initialized : bool;
  canvas : Canvas;
  food_text : shape;
  ant_text : shape;
  _click_rectangles : list ClickRect;
  ant_type_selected : option string;
  ant_type_frames : list (string * shape);
  place_points : gmap string point;
  images : gmap string (gmap insect shape);
  stdout : list printed;
  rand_calls : nat;
  wait_calls : nat }.

Definition set_initialized (b : bool) (g : GUI) : GUI :=
  mkGUI b (canvas g) (food_text g) (ant_text g) (_click_rectangles g)
        (ant_type_selected g) (ant_type_frames g) (place_points g) (images g)
        (stdout g) (rand_calls g) (wait_calls g).
Definition set_canvas (c : Canvas) (g : GUI) : GUI :=
  mkGUI (initialized g) c (food_text g) (ant_text g) (_click_rectangles g)
        (ant_type_selected g) (ant_type_frames g) (place_points g) (images g)
        (stdout g) (rand_calls g) (wait_calls g).
Definition set_food_text (s : shape) (g : GUI) : GUI :=
  mkGUI (initialized g) (canvas g) s (ant_text g) (_click_rectangles g)
        (ant_type_selected g) (ant_type_frames g) (place_points g) (images g)
        (stdout g) (rand_calls g) (wait_calls g).
Definition set_ant_text (s : shape) (g : GUI) : GUI :=
  mkGUI (initialized g) (canvas g) (food_text g) s (_click_rectangles g)
        (ant_type_selected g) (ant_type_frames g) (place_points g) (images g)
        (stdout g) (rand_calls g) (wait_calls g).
Definition set_click_rectangles (l : list ClickRect) (g : GUI) : GUI :=
  mkGUI (initialized g) (canvas g) (food_text g) (ant_text g) l
        (ant_type_selected g) (ant_type_frames g) (place_points g) (images g)
        (stdout g) (rand_calls g) (wait_calls g).
Definition set_ant_type_selected (s : option string) (g : GUI) : GUI :=
  mkGUI (initialized g) (canvas g) (food_text g) (ant_text g) (_click_rectangles g)
        s (ant_type_frames g) (place_points g) (images g)
        (stdout g) (rand_calls g) (wait_calls g).
Definition set_ant_type_frames (l : list (string * shape)) (g : GUI) : GUI :=
  mkGUI (initialized g) (canvas g) (food_text g) (ant_text g) (_click_rectangles g)
        (ant_type_selected g) l (place_points g) (images g)
        (stdout g) (rand_calls g) (wait_calls g).
Definition set_place_points (m : gmap string point) (g : GUI) : GUI :=
  mkGUI (initialized g) (canvas g) (food_text g) (ant_text g) (_click_rectangles g)
        (ant_type_selected g) (ant_type_frames g) m (images g)
        (stdout g) (rand_calls g) (wait_calls g).
Definition set_images (m : gmap string (gmap insect shape)) (g : GUI) : GUI :=
  mkGUI (initialized g) (canvas g) (food_text g) (ant_text g) (_click_rectangles g)
        (ant_type_selected g) (ant_type_frames g) (place_points g) m
        (stdout g) (rand_calls g) (wait_calls g).
Definition set_stdout (l : list printed) (g : GUI) : GUI :=
  mkGUI (initialized g) (canvas g) (food_text g) (ant_text g) (_click_rectangles g)
        (ant_type_selected g) (ant_type_frames g) (place_points g) (images g)
        l (rand_calls g) (wait_calls g).
Definition set_rand_calls (n : nat) (g : GUI) : GUI :=
  mkGUI (initialized g) (canvas g) (food_text g) (ant_text g) (_click_rectangles g)
        (ant_type_selected g) (ant_type_frames g) (place_points g) (images g)
        (stdout g) n (wait_calls g).
Definition set_wait_calls (n : nat) (g : GUI) : GUI :=
  mkGUI (initialized g) (canvas g) (food_text g) (ant_text g) (_click_rectangles g)
        (ant_type_selected g) (ant_type_frames g) (place_points g) (images g)
        (stdout g) (rand_calls g) n.

(** ** Computations on the GUI state *)

Definition M (A : Type) : Type := GUI → result A * GUI.

Definition ret {A} (a : A) : M A := λ g, (Ok a, g).
Definition raise {A} (e : exn) : M A := λ g, (Raise e, g).
Definition bind {A B} (m : M A) (k : A → M B) : M B :=
  λ g, match m g with
       | (Ok a, g') => k a g'
       | (Raise e, g') => (Raise e, g')
       end.
(** [try: m  except Exception as e: h e] *)
Definition try_except {A} (m : M A) (h : exn → M A) : M A :=
  λ g, match m g with
       | (Ok a, g') => (Ok a, g')
       | (Raise e, g') => h e g'
       end.
Definition gets {A} (f : GUI → A) : M A := λ g, (Ok (f g), g).
Definition modify (f : GUI → GUI) : M unit := λ g, (Ok tt, f g).

Declare Scope gui_scope.
Delimit Scope gui_scope with gui.
Notation "x <- m ;; k" := (bind m (λ x, k))
  (at level 100, m at next level, right associativity) : gui_scope.
Notation "m ;; k" := (bind m (λ _, k))
  (at level 100, right associativity) : gui_scope.
Local Open Scope gui_scope.

Fixpoint for_each {A} (l : list A) (body : A → M unit) : M unit :=
  match l with
  | [] => ret tt
  | x :: l' => body x ;; for_each l' body
  end.

Definition print (x : printed) : M unit :=
  modify (λ g, set_stdout (stdout g ++ [x]) g).

(** *** The canvas *)

Definition emit (op : Op) : M unit :=
  modify (λ g, set_canvas (mkCanvas (next_id (canvas g)) (ops (canvas g) ++ [op])) g).

Definition fresh_shape (mk : shape → Op) : M shape :=
  λ g, let id := next_id (canvas g) in
       (Ok id, set_canvas (mkCanvas (S id) (ops (canvas g) ++ [mk id])) g).

Definition draw_text (text : string) (pos : point) (anchor : option string) : M shape :=
  fresh_shape (λ id, OpDrawText id text pos anchor).
Definition draw_image (pos : point) (file : string) (behind : shape) : M shape :=
  fresh_shape (λ id, OpDrawImage id pos file behind).
Definition draw_rectangle (pos : point) (width height : Z) (fill_color : string) : M shape :=
  fresh_shape (λ id, OpDrawRectangle id pos width height fill_color).
Definition slide_shape (id : shape) (pos : point) (duration : Q) : M unit :=
  emit (OpSlideShape id pos duration).
Definition edit_text (id : shape) (text : string) : M unit :=
  emit (OpEditText id text).
Definition itemconfigure (id : shape) (fill : string) : M unit :=
  emit (OpItemConfigure id fill).
Definition clear (id : shape) : M unit :=
  emit (OpClear id).

(** *** The tracker [self.images] and [self.place_points] *)

Abbreviation Images := (gmap string (gmap insect shape)).

(** [insect in self.images[name]] *)
Definition tracked (im : Images) (name : string) (i : insect) : bool :=
  match im !! name with
  | Some d => bool_decide (is_Some (d !! i))
  | None => false
  end.

(** [self.images[name]] *)
Definition images_at (name : string) : M (gmap insect shape) :=
  λ g, match images g !! name with
       | Some d => (Ok d, g)
       | None => (Raise (KeyError (key_str name)), g)
       end.

(** [self.images[name][i]] *)
Definition image_of (name : string) (i : insect) : M shape :=
  d <- images_at name ;;
  match d !! i with
  | Some img => ret img
  | None => raise (KeyError (key_insect i))
  end.

(** [self.images[name].pop(i)] *)
Definition pop_image (name : string) (i : insect) : M shape :=
  d <- images_at name ;;
  match d !! i with
  | Some img => modify (λ g, set_images (<[name := delete i d]> (images g)) g) ;; ret img
  | None => raise (KeyError (key_insect i))
  end.

(** [self.images[name][i] = img] *)
Definition store_image (name : string) (i : insect) (img : shape) : M unit :=
  d <- images_at name ;;
  modify (λ g, set_images (<[name := <[i := img]> d]> (images g)) g).

(** [self.place_points[name]] *)
Definition point_of (name : string) : M point :=
  λ g, match place_points g !! name with
       | Some p => (Ok p, g)
       | None => (Raise (KeyError (key_str name)), g)
       end.

(** ** What the GUI imports from modules outside this file *)

Record Externals := mkExternals {
  (** [graphics.shift_point] *)
  shift_point : point → point → point;
  (** [random.randint], by the number of earlier calls *)
  randint : nat → Z → Z → Z;
  (** [canvas.wait_for_click(seconds)], by the number of earlier calls
      ([None] when called without argument): the click position, if any,
      and the time the wait took *)
  wait_for_click : nat → option Q → option point * Q;
  (** [colony.deploy_ant(place_name, ant_type_name)] *)
  deploy_ant : string → string → Colony → result unit * Colony;
  (** [colony.remove_ant(place_name)] *)
  remove_ant : string → Colony → result unit * Colony;
  (** [graphics.FRAME_TIME], [math.pi], [graphics.translate_point] and
      [graphics.shift_point] on float coordinates *)
  FRAME_TIME : Q;
  pi : Q;
  translate_point : fpoint → Q → Q → fpoint;
  shift_fpoint : fpoint → fpoint → fpoint }.

Section AntsGUI.

Variable X : Externals.

Definition random_randint (lo hi : Z) : M Z :=
  λ g, (Ok (randint X (rand_calls g) lo hi), set_rand_calls (S (rand_calls g)) g).

(** [_draw_insect(self, insect, place_name, random_offset=False, behind=0)] *)
Definition _draw_insect (i : Insect) (place_name : string)
    (random_offset : bool) (behind : shape) : M unit :=
  image_file <- match assoc (insect_name i) INSECT_FILES with
                | Some f => ret f
                | None => raise (KeyError (key_str (insect_name i)))
                end ;;
  pt <- point_of place_name ;;
  let pos := shift_point X pt PLACE_PADDING in
  pos <- (if random_offset
          then dx <- random_randint (-10) 10 ;;
               dy <- random_randint (-50) 50 ;;
               ret (shift_point X pos (dx, dy))
          else ret pos) ;;
  image <- draw_image pos image_file behind ;;
  store_image place_name (insect_key i) image.

(** The source of an arriving bee: the [for ... else] of lines 236-240. *)
Definition source_of (colony : Colony) (place : Place) : Place :=
  match List.find (λ other, bool_decide (place_exit other = Some (place_name place)))
                  (places colony) with
  | Some other_place => other_place
  | None => hive colony
  end.

(** Lines 227-233: the ant of the place and its passenger. *)
Definition add_missing_ants (place : Place) : M unit :=
  let name := place_name place in
  match place_ant place with
  | Some a =>
      match passenger a with
      | Some p =>
          inside <- gets (λ g, tracked (images g) name (ant_key p)) ;;
          if inside then ret tt
          else container <- image_of name (ant_key a) ;;
               _draw_insect (of_ant p) name false container
      | None => ret tt
      end ;;
      inside <- gets (λ g, tracked (images g) name (ant_key a)) ;;
      if inside then ret tt else _draw_insect (of_ant a) name false 0
  | None => ret tt
  end.

(** Lines 236-244: a bee of the place that is not in [current]. *)
Definition arrive (colony : Colony) (place : Place) (bee : Bee) : M unit :=
  let name := place_name place in
  let other_place := source_of colony place in
  image <- pop_image (place_name other_place) (bee_key bee) ;;
  pt <- point_of name ;;
  let pos := shift_point X pt PLACE_PADDING in
  slide_shape image pos STRATEGY_SECONDS ;;
  store_image name (bee_key bee) image.

(** Lines 235-244: the body of the loop over [place.bees]. *)
Definition move_bee (colony : Colony) (place : Place) (bee : Bee) : M unit :=
  inside <- gets (λ g, tracked (images g) (place_name place) (bee_key bee)) ;;
  if inside then ret tt else arrive colony place bee.

(** Lines 234-244. *)
Definition move_bees (colony : Colony) (place : Place) : M unit :=
  for_each (place_bees place) (move_bee colony place).

(** [valid_insects] of lines 247-250 ([None] is never a key of the
    tracker and is left out). *)
Definition valid_insects (place : Place) : gset insect :=
  list_to_set (bee_key <$> place_bees place) ∪
  match place_ant place with
  | Some a => {[ant_key a]} ∪
              match passenger a with Some p => {[ant_key p]} | None => ∅ end
  | None => ∅
  end.

(** Lines 252-255: one insect of [current - valid_insects]. *)
Definition retire (place : Place) (i : insect) : M unit :=
  let name := place_name place in
  expired <- match place_exit place with
             | None => ret true
             | Some exit_name => d <- images_at exit_name ;;
                                 ret (negb (bool_decide (is_Some (d !! i))))
             end ;;
  if expired : bool
  then image <- pop_image name i ;;
       pt <- point_of name ;;
       slide_shape image (pt.1, CRYPT) STRATEGY_SECONDS
  else ret tt.

(** Lines 246-255.  The set [current - valid_insects] is built once; a
    Python set is iterated in no specified order, here in the order of
    [elements]. *)
Definition remove_expired (place : Place) : M unit :=
  current <- images_at (place_name place) ;;
  for_each (elements (dom current ∖ valid_insects place)) (retire place).

(** The body of the loop of [_update_places] for one item of
    [colony.places]. *)
Definition update_place (colony : Colony) (place : Place) : M unit :=
  if decide (place_name place = "Hive") then ret tt
  else
    images_at (place_name place) ;;
    add_missing_ants place ;;
    move_bees colony place ;;
    remove_expired place.

(** [_update_places(self, colony)] *)
Definition _update_places (colony : Colony) : M unit :=
  for_each (places colony) (update_place colony).

(** [add_click_rect(self, pos, width, height, on_click, color='White')];
    the polygon drawn is [graphics.rectangle_points(pos, width, height)]. *)
Definition add_click_rect (pos : point) (width height : Z) (on_click : Callback)
    (color : string) : M shape :=
  frame <- draw_rectangle pos width height color ;;
  modify (λ g, set_click_rectangles
                 (_click_rectangles g ++ [mkRect pos width height frame on_click]) g) ;;
  ret frame.

(** [_update_control_panel(self, colony)] *)
Definition _update_control_panel (colony : Colony) : M unit :=
  frames <- gets ant_type_frames ;;
  for_each frames (λ '(name, frame),
    cost <- match assoc name (ant_types colony) with
            | Some c => ret c
            | None => raise (KeyError (key_str name))
            end ;;
    selected <- gets ant_type_selected ;;
    color <- (if decide (cost > food colony)%Z then ret "Gray"
              else if decide (Some name = selected)
                   then txt <- gets ant_text ;;
                        edit_text txt ("Ant selected: " +:+ name) ;;
                        ret "Blue"
                   else ret "White") ;;
    itemconfigure frame color).

(** The loop of [_init_control_panel], [panel_pos] being its variable. *)
Fixpoint init_panel_loop (types : list (string * Z)) (panel_pos : point) : M unit :=
  match types with
  | [] => ret tt
  | (name, food_cost) :: types' =>
      let width := (ANT_IMAGE_WIDTH + 2 * PANEL_PADDING.1)%Z in
      let height := (ANT_IMAGE_HEIGHT + 6 + 2 * PANEL_PADDING.2)%Z in
      frame <- add_click_rect panel_pos width height (select_ant_type name) "White" ;;
      modify (λ g, set_ant_type_frames (ant_type_frames g ++ [(name, frame)]) g) ;;
      let img_pos := shift_point X panel_pos PANEL_PADDING in
      file <- match assoc name INSECT_FILES with
              | Some f => ret f
              | None => raise (KeyError (key_str name))
              end ;;
      draw_image img_pos file 0 ;;
      let cost_pos := shift_point X panel_pos
                        (width / 2, ANT_IMAGE_HEIGHT + 4 + PANEL_PADDING.2)%Z in
      draw_text (pretty food_cost) cost_pos (Some "center") ;;
      init_panel_loop types' (shift_point X panel_pos (width + 2, 0)%Z)
  end.

(** [_init_control_panel(self, colony)] *)
Definition _init_control_panel (colony : Colony) : M unit :=
  modify (set_ant_type_selected None) ;;
  modify (set_ant_type_frames []) ;;
  init_panel_loop (ant_types colony) PANEL_POS.

(** The first loop of [_init_places]; [place_pos] and [rows] are its
    variables, the final [place_pos] is returned. *)
Fixpoint init_places_loop (ps : list Place) (place_pos : point) (rows : Z) : M point :=
  match ps with
  | [] => ret place_pos
  | place :: ps' =>
      let name := place_name place in
      let width := (BEE_IMAGE_WIDTH + 2 * PLACE_PADDING.1)%Z in
      let height := (ANT_IMAGE_HEIGHT + 2 * PLACE_PADDING.2)%Z in
      if decide (name = "Hive") then init_places_loop ps' place_pos rows
      else
        exit_name <- match place_exit place with
                     | Some e => ret e
                     | None => raise (AttributeError "name")
                     end ;;
        let '(place_pos, rows) :=
          if decide (exit_name = "AntQueen")
          then (shift_point X PLACE_POS (0, rows * (height + PLACE_MARGIN))%Z, (rows + 1)%Z)
          else (place_pos, rows) in
        let color := if String.prefix "water" name then "Blue" else "White" in
        add_click_rect place_pos width height (click_place name) color ;;
        draw_image place_pos TUNNEL_FILE 0 ;;
        modify (λ g, set_place_points (<[name := place_pos]> (place_points g)) g) ;;
        modify (λ g, set_images (<[name := ∅]> (images g)) g) ;;
        init_places_loop ps' (shift_point X place_pos (width + PLACE_MARGIN, 0)%Z) rows
  end.

(** [_init_places(self, colony)] *)
Definition _init_places (colony : Colony) : M unit :=
  let width := (BEE_IMAGE_WIDTH + 2 * PLACE_PADDING.1)%Z in
  modify (set_place_points ∅) ;;
  modify (set_images {["AntQueen" := ∅]}) ;;
  place_pos <- init_places_loop (places colony) PLACE_POS 0 ;;
  let hive_name := place_name (hive colony) in
  modify (λ g, set_images (<[hive_name := ∅]> (images g)) g) ;;
  modify (λ g, set_place_points
                 (<[hive_name := (place_pos.1 + width, HIVE_HEIGHT)%Z]> (place_points g)) g) ;;
  for_each (place_bees (hive colony)) (λ bee, _draw_insect (of_bee bee) hive_name true 0).

Definition canvas_wait_for_click (seconds : option Q) : M (option point * Q) :=
  λ g, (Ok (wait_for_click X (wait_calls g) seconds),
        set_wait_calls (S (wait_calls g))
          (set_canvas (mkCanvas (next_id (canvas g))
                                (ops (canvas g) ++ [OpWaitForClick seconds])) g)).

(** [initialize_colony_graphics(self, colony)]; [graphics.Canvas()] is a
    canvas with nothing drawn. *)
Definition initialize_colony_graphics (colony : Colony) : M unit :=
  modify (set_initialized true) ;;
  modify (set_canvas (mkCanvas 1 [])) ;;
  t <- draw_text "Food: 1  Time: 0" (20, 20)%Z None ;;
  modify (set_food_text t) ;;
  t <- draw_text "Ant selected: None" (20, 140)%Z None ;;
  modify (set_ant_text t) ;;
  modify (set_click_rectangles []) ;;
  _init_control_panel colony ;;
  _init_places colony ;;
  start_text <- draw_text "CLICK TO START" MESSAGE_POS None ;;
  canvas_wait_for_click None ;;
  clear start_text.

(** A result of the model seen from the GUI. *)
Definition from_result {A} (r : result A) : M A :=
  match r with Ok a => ret a | Raise e => raise e end.

(** [on_click] of [_init_control_panel] (lines 99-101). *)
Definition on_click_panel (name : string) (colony : Colony) (frame : shape) : M Colony :=
  modify (set_ant_type_selected (Some name)) ;;
  _update_control_panel colony ;;
  ret colony.

(** [on_click] of [_init_places] (lines 130-145).  The colony object is
    mutated by the model; the colony returned is the one the model left,
    also when [deploy_ant] raised. *)
Definition on_click_place (name : string) (colony : Colony) (frame : shape) : M Colony :=
  ant_type <- gets ant_type_selected ;;
  existing_ant <- match place_named colony name with
                  | Some p => ret (place_ant p)
                  | None => raise (KeyError (key_str name))
                  end ;;
  if decide (ant_type = Some "Remover") then
    match existing_ant with
    | Some _ =>
        print (out_str ("colony.remove_ant('" +:+ name +:+ "')")) ;;
        let '(r, colony') := remove_ant X name colony in
        from_result r ;;
        _update_places colony' ;;
        ret colony'
    | None => ret colony
    end
  else
    match ant_type with
    | Some ant_type =>
        let '(r, colony') := deploy_ant X name ant_type colony in
        try_except
          (print (out_str ("colony.deploy_ant('" +:+ name +:+ "', '" +:+ ant_type +:+ "')")) ;;
           from_result r ;;
           _update_places colony')
          (λ e, print (out_exn e)) ;;
        ret colony'
    | None => ret colony
    end.

Definition on_click (cb : Callback) : Colony → shape → M Colony :=
  match cb with
  | select_ant_type name => on_click_panel name
  | click_place name => on_click_place name
  end.

(** The test of line 197. *)
Definition contains (pos : point) (r : ClickRect) : bool :=
  let '(x, y) := pos in
  let '(cx, cy) := rect_corner r in
  bool_decide (x >= cx)%Z && bool_decide (x <= cx + rect_width r)%Z &&
  bool_decide (y >= cy)%Z && bool_decide (y <= cy + rect_height r)%Z.

(** The loop of [_interpret_click] over the rectangles still to visit. *)
Fixpoint interpret_click_loop (rects : list ClickRect) (pos : point)
    (colony : Colony) : M Colony :=
  match rects with
  | [] => ret colony
  | r :: rects' =>
      colony <- (if contains pos r
                 then on_click (rect_on_click r) colony (rect_frame r)
                 else ret colony) ;;
      interpret_click_loop rects' pos colony
  end.

(** [_interpret_click(self, pos, colony)] *)
Definition _interpret_click (pos : point) (colony : Colony) : M Colony :=
  rects <- gets _click_rectangles ;;
  interpret_click_loop rects pos colony.

(** One iteration of the [while] loop of [strategy] (lines 175-182): the
    colony as the callbacks left it and the new value of [elapsed]. *)
Definition strategy_step (colony : Colony) (elapsed : Q) : M (Colony * Q) :=
  _update_control_panel colony ;;
  _update_places colony ;;
  txt <- gets food_text ;;
  edit_text txt ("Food: " +:+ pretty (food colony) +:+ "  Time: " +:+ pretty (time colony)) ;;
  click <- canvas_wait_for_click (Some (STRATEGY_SECONDS - elapsed)%Q) ;;
  let '(pos, el) := click in
  let elapsed := (elapsed + el)%Q in
  colony <- match pos with
            | Some pos => _interpret_click pos colony
            | None => ret colony
            end ;;
  ret (colony, elapsed).

(** The [while elapsed < STRATEGY_SECONDS] loop; [None] when the fuel does
    not suffice for the loop to end. *)
Fixpoint strategy_loop (fuel : nat) (colony : Colony) (elapsed : Q) (g : GUI)
    : option (result (Colony * Q) * GUI) :=
  if Qlt_le_dec elapsed STRATEGY_SECONDS then
    match fuel with
    | O => None
    | S fuel' =>
        match strategy_step colony elapsed g with
        | (Ok (colony', elapsed'), g') => strategy_loop fuel' colony' elapsed' g'
        | (Raise e, g') => Some (Raise e, g')
        end
    end
  else Some (Ok (colony, elapsed), g).

(** [strategy(self, colony)] up to the end of its loop (lines 171-182);
    the leaves thrown afterwards are [animate_leaf] and [animate_dart]
    below. *)
Definition strategy (fuel : nat) (colony : Colony) (g : GUI)
    : option (result (Colony * Q) * GUI) :=
  match (if initialized g then ret tt else initialize_colony_graphics colony) g with
  | (Ok _, g') => strategy_loop fuel colony 0%Q g'
  | (Raise e, g') => Some (Raise e, g')
  end.

(** ** The animations *)

(** Float division. *)
Definition py_div (a b : Q) : M Q :=
  if Qeq_dec b 0 then raise ZeroDivisionError else ret (a / b)%Q.

(** [int(x)]: truncation towards zero. *)
Definition py_int (x : Q) : Z := (Qnum x ÷ Zpos (Qden x))%Z.

(** [leaf_coords(pos, angle, length)] *)
Definition leaf_coords (pos : fpoint) (angle length : Q) : list fpoint :=
  let angles := [angle - pi X; angle - pi X / 2; angle; angle + pi X / 2]%Q in
  let distances := [length / 3; length / 2; length; length / 2]%Q in
  (λ '(a, d), translate_point X pos a d) <$> zip angles distances.

(** [dart_coords(pos, angle, length)] *)
Definition dart_coords (pos : fpoint) (angle length : Q) : list fpoint :=
  let angles := [angle - pi X; angle - pi X * 3 / 4; angle - pi X / 2;
                 angle - pi X / 4; angle; angle + pi X / 4; angle + pi X / 2;
                 angle + pi X * 3 / 4]%Q in
  let distances := [length; length / 5; length; length / 5;
                    length; length / 5; length; length / 5]%Q in
  (λ '(a, d), translate_point X pos a d) <$> zip angles distances.

(** What a started animation keeps: the shape, and the variables [start]
    and [increment] that its [points_fn] closes over. *)
Record Task := mkTask {
  task_shape : shape;
  task_start : fpoint;
  task_increment : fpoint }.



Definition draw_polygon (points : list fpoint) (color fill_color : string)
    (smooth : Z) : M shape :=
  fresh_shape (λ id, OpDrawPolygon id points color fill_color smooth).

(** [animate_leaf(canvas, start, end, duration=0.3, color='ForestGreen')] *)
Definition animate_leaf (start end_ : fpoint) (duration : Q) (color : string) : M Task :=
  let length := 40%Q in
  leaf <- draw_polygon (leaf_coords start 0 length) "DarkGreen" color 1 ;;
  num_frames <- py_div duration (FRAME_TIME X) ;;
  ix <- py_div (end_.1 - start.1) num_frames ;;
  iy <- py_div (end_.2 - start.2) num_frames ;;
  emit (OpAnimateShape leaf duration) ;;
  emit (OpAfterClear (py_int (1000 * duration) + 1) leaf) ;;
  ret (mkTask leaf start (ix, iy)).

(** [animate_dart(canvas, start, end, duration=0.5, color='Black')] *)
Definition animate_dart (start end_ : fpoint) (duration : Q) (color : string) : M Task :=
  let length := 40%Q in
  dart <- draw_polygon (dart_coords start 0 length) "DarkGreen" color 1 ;;
  num_frames <- py_div duration (FRAME_TIME X) ;;
  ix <- py_div (end_.1 - start.1) num_frames ;;
  iy <- py_div (end_.2 - start.2) num_frames ;;
  emit (OpAnimateShape dart duration) ;;
  emit (OpAfterClear (py_int (1000 * duration) + 1) dart) ;;
  ret (mkTask dart start (ix, iy)).



End AntsGUI.

(** ** Vocabulary of the properties *)

(** The image tracked for insect [i] in container [name], if any. *)
Definition handle (im : Images) (name : string) (i : insect) : option shape :=
  im !! name ≫= (λ d, d !! i).

(** [name] is a key of [self.images]. *)
Definition known (im : Images) (name : string) : Prop := is_Some (im !! name).

(** The two updates of the tracker, as functions of the whole mapping. *)
Definition im_store (name : string) (i : insect) (h : shape) (im : Images) : Images :=
  alter (λ d, <[i := h]> d) name im.
Definition im_pop (name : string) (i : insect) (im : Images) : Images :=
  alter (λ d, delete i d) name im.

(** No insect has an image in two containers. *)
Definition tracked_once (im : Images) : Prop :=
  ∀ i n1 n2, tracked im n1 i = true → tracked im n2 i = true → n1 = n2.

(** The ants the GUI sees in a place: its ant and the passenger. *)
Definition occupants (p : Place) : list Ant :=
  match place_ant p with
  | Some a => a :: match passenger a with Some q => [q] | None => [] end
  | None => []
  end.

(** The places [_update_places] works on. *)
Definition shown (c : Colony) (p : Place) : Prop :=
  p ∈ places c ∧ place_name p ≠ "Hive".

(** The model reports every ant at one place only, and the tracker has no
    image of it in another container. *)
Definition ants_at_home (c : Colony) (im : Images) : Prop :=
  ∀ p a, shown c p → a ∈ occupants p →
    (∀ n, tracked im n (ant_key a) = true → n = place_name p) ∧
    (∀ q a', shown c q → a' ∈ occupants q → ant_key a' = ant_key a →
             place_name q = place_name p).

(** The model reports every bee at one place only. *)
Definition bees_at_one_place (c : Colony) : Prop :=
  ∀ p q b b', shown c p → shown c q → b ∈ place_bees p → b' ∈ place_bees q →
    bee_key b = bee_key b' → place_name p = place_name q.

(** What one update of the tracker by [update_place] can be. *)
Inductive step (c : Colony) (p : Place) (im : Images) : Images → Prop :=
| step_draw a h :
    a ∈ occupants p →
    tracked im (place_name p) (ant_key a) = false →
    step c p im (im_store (place_name p) (ant_key a) h im)
| step_take b h :
    b ∈ place_bees p →
    tracked im (place_name p) (bee_key b) = false →
    handle im (place_name (source_of c p)) (bee_key b) = Some h →
    step c p im (im_pop (place_name (source_of c p)) (bee_key b) im)
| step_move b h :
    b ∈ place_bees p →
    tracked im (place_name p) (bee_key b) = false →
    handle im (place_name (source_of c p)) (bee_key b) = Some h →
    step c p im (im_store (place_name p) (bee_key b) h
                   (im_pop (place_name (source_of c p)) (bee_key b) im))
| step_retire i :
    tracked im (place_name p) i = true →
    i ∉ valid_insects p →
    (∀ e, place_exit p = Some e → tracked im e i = false) →
    step c p im (im_pop (place_name p) i im).

(** The tracker agrees with the snapshot at place [p]: nothing is left for
    [update_place] to do there. *)
Definition settled_at (im : Images) (p : Place) : Prop :=
  known im (place_name p) ∧
  (∀ a, a ∈ occupants p → tracked im (place_name p) (ant_key a) = true) ∧
  (∀ b, b ∈ place_bees p → tracked im (place_name p) (bee_key b) = true) ∧
  (∀ i, tracked im (place_name p) i = true →
        i ∈ valid_insects p ∨ place_exit p = Some (place_name p)).

Definition settled (c : Colony) (im : Images) : Prop :=
  ∀ p, shown c p → settled_at im p.

(** Entries of container [n] are kept. *)
Definition keeps_container (n : string) (g g' : GUI) : Prop :=
  ∀ i, tracked (images g) n i = true → tracked (images g') n i = true.

(** The tracker went through updates of [update_place c p]. *)
Definition evolves (c : Colony) (p : Place) (g g' : GUI) : Prop :=
  rtc (step c p) (images g) (images g').

(** The one exception the passenger lookup of line 230 can raise. *)
Definition ant_error (e : exn) : Prop := ∃ k, e = KeyError (key_insect (AntKey k)).

(** Every entry of the tracker in [g'] was one in [g]. *)
Definition shrinks (g g' : GUI) : Prop :=
  ∀ n i, tracked (images g') n i = true → tracked (images g) n i = true.

(** The test of line 252 at the moment it is made. *)
Definition expired (p : Place) (i : insect) (im : Images) : Prop :=
  ∀ e, place_exit p = Some e → tracked im e i = false.



(** The spec's [hitTest]: the first registered region, in registration
    order, whose box contains the point. *)
Definition hit_test (pos : point) (rects : list ClickRect) : option ClickRect :=
  List.find (contains pos) rects.

(** The callbacks of the given regions, one after the other. *)
Fixpoint run_callbacks (X : Externals) (rects : list ClickRect) (colony : Colony)
    : M Colony :=
  match rects with
  | [] => ret colony
  | r :: rects' =>
      colony <- on_click X (rect_on_click r) colony (rect_frame r) ;;
      run_callbacks X rects' colony
  end.

(** Every bounded wait takes at most the time asked for, and exactly that
    time when it ends without a click. *)
Definition wait_bounded (X : Externals) : Prop :=
  ∀ n r, (0 < r)%Q →
    ((wait_for_click X n (Some r)).2 <= r)%Q ∧
    ((wait_for_click X n (Some r)).1 = None → (wait_for_click X n (Some r)).2 == r)%Q.

(** Lines 175-178: what an iteration of the loop of [strategy] does before
    it waits. *)
Definition refresh (X : Externals) (colony : Colony) : M unit :=
  _update_control_panel colony ;;
  _update_places X colony ;;
  txt <- gets food_text ;;
  edit_text txt ("Food: " +:+ pretty (food colony) +:+ "  Time: " +:+ pretty (time colony)).

(** The commands, among [l], that clear shape [id] or schedule its
    clearing. *)
Definition clear_commands (id : shape) (l : list Op) : list Op :=
  List.filter (λ op, match op with
                     | OpClear id' | OpAfterClear _ id' => bool_decide (id' = id)
                     | _ => false
                     end) l.

(** ** Small colonies and states, for examples *)

Module Examples.

(** A backend that adds offsets, a random source that is always [0], a
    user who never clicks, and a model that rejects every deployment. *)
Definition ext0 : Externals :=
  mkExternals
    (λ p o, (p.1 + o.1, p.2 + o.2)%Z)
    (λ _ _ _, 0%Z)
    (λ _ seconds, (None, default 0%Q seconds))
    (λ _ _ c, (Raise (ModelError "Not enough food remains"), c))
    (λ _ c, (Ok tt, c))
    (1 # 30) (355 # 113)
    (λ p _ _, p)
    (λ p o, (p.1 + o.1, p.2 + o.2)%Q).

(** The same, with a user who clicks at once, every time. *)
Definition ext_clicks : Externals :=
  mkExternals (shift_point ext0) (randint ext0)
    (λ _ _, (Some (0, 0)%Z, 0%Q))
    (deploy_ant ext0) (remove_ant ext0) (FRAME_TIME ext0) (pi ext0)
    (translate_point ext0) (shift_fpoint ext0).

Definition gui0 : GUI := mkGUI false (mkCanvas 1 []) 0 0 [] None [] ∅ ∅ [] 0 0.

Definition bee1 : Bee := mkBee 1 "Bee".
Definition thrower : Ant := mkAnt 1 "Thrower" false None.
Definition bodyguard (inside : option Ant) : Ant := mkAnt 2 "Bodyguard" true inside.

Definition the_hive (bees : list Bee) : Place := mkPlace "Hive" None None bees.
Definition tunnel0 (a : option Ant) (bees : list Bee) : Place :=
  mkPlace "tunnel_0_0" (Some "AntQueen") a bees.
Definition tunnel1 (a : option Ant) (bees : list Bee) : Place :=
  mkPlace "tunnel_0_1" (Some "tunnel_0_0") a bees.

Definition colony_of (ps : list Place) (hive_bees : list Bee) : Colony :=
  mkColony ps (the_hive hive_bees) 2 0 [("Thrower", 3%Z)].

(** The bee waits in the hive, then enters the tunnel, then advances. *)
Definition col_start : Colony :=
  colony_of [the_hive [bee1]; tunnel0 None []; tunnel1 None []] [bee1].
Definition col_entered : Colony :=
  colony_of [the_hive []; tunnel0 None []; tunnel1 None [bee1]] [].
Definition col_advanced : Colony :=
  colony_of [the_hive []; tunnel0 None [bee1]; tunnel1 None []] [].

Definition gui_start : GUI := (_init_places ext0 col_start gui0).2.
Definition gui_entered : GUI := (_update_places ext0 col_entered gui_start).2.

(** A bodyguard alone, then with a thrower placed inside. *)
Definition col_guard : Colony :=
  colony_of [the_hive []; tunnel0 (Some (bodyguard None)) []] [].
Definition col_guard_thrower : Colony :=
  colony_of [the_hive []; tunnel0 (Some (bodyguard (Some thrower))) []] [].
Definition gui_guard : GUI := (_update_places ext0 col_guard gui_start).2.

(** Two rectangles that overlap. *)
Definition rect_first : ClickRect := mkRect (0, 0)%Z 10 10 1 (select_ant_type "Thrower").
Definition rect_second : ClickRect := mkRect (5, 5)%Z 10 10 2 (select_ant_type "Long").
Definition gui_overlap : GUI := set_click_rectangles [rect_first; rect_second] gui0.
Definition gui_one_rect : GUI := set_click_rectangles [rect_first] gui0.

Definition gui_armed : GUI := set_ant_type_selected (Some "Thrower") gui_start.

Definition col_empty : Colony := mkColony [] (the_hive []) 2 0 [].

End Examples.

(** A computation that leaves a component [f] of the state alone. *)
Definition preserves {A B} (f : GUI → B) (m : M A) : Prop :=
  ∀ g, f (m g).2 = f g.

(** A computation that maintains [I], whatever its result. *)
Definition keeps {A} (I : GUI → Prop) (m : M A) : Prop :=
  ∀ g, I g → I (m g).2.

(** Nothing is tracked outside container [n]. *)
Definition only_in (n : string) (g : GUI) : Prop :=
  ∀ n' i, tracked (images g) n' i = true → n' = n.

(** ** The end of a turn: leaves and darts *)

Definition LEAF_START_OFFSET : point := (30, 30)%Z.
Definition LEAF_END_OFFSET : point := (35, 30)%Z.
Definition LEAF_COLORS : list (string * string) :=
  [("Thrower", "ForestGreen"); ("Short", "Green"); ("Long", "DarkGreen");
   ("Slow", "LightBlue"); ("Stun", "Red"); ("Scuba", "Blue"); ("Queen", "Purple")].

(** What the end of a turn asks of the model (ants.py). *)
Record Model := mkModel {
  (** [colony.ants] *)
  colony_ants : Colony → list Ant;
  (** [ant.place.name] *)
  ant_place_name : Ant → string;
  (** [ant.nearest_bee(colony.hive)] *)
  nearest_bee : Ant → Colony → option Bee;
  (** [bee.place.name] *)
  bee_place_name : Bee → string;
  (** the truth value of [ant.has_target(colony)] *)
  has_target : Ant → Colony → bool }.

(** A point of the layout handed to an animation. *)
Definition to_fpoint (p : point) : fpoint := (inject_Z p.1, inject_Z p.2).

Section Throwing.

Variable X : Externals.
Variable Md : Model.

(** [_throw(self, ant, colony)]; the default duration of [animate_leaf]
    is [0.3]. *)
Definition _throw (ant : Ant) (colony : Colony) : M unit :=
  match nearest_bee Md ant colony with
  | Some bee =>
      pa <- point_of (ant_place_name Md ant) ;;
      let start := shift_point X pa LEAF_START_OFFSET in
      pb <- point_of (bee_place_name Md bee) ;;
      let end_ := shift_point X pb LEAF_END_OFFSET in
      color <- match assoc (ant_name ant) LEAF_COLORS with
               | Some c => ret c
               | None => raise (KeyError (key_str (ant_name ant)))
               end ;;
      animate_leaf X (to_fpoint start) (to_fpoint end_) (3 # 10) color ;;
      ret tt
  | None => ret tt
  end.

(** [_throw_dart(self, ant, colony)]; the defaults of [animate_dart] are
    [0.5] and ['Black']. *)
Definition _throw_dart (ant : Ant) (colony : Colony) : M unit :=
  if has_target Md ant colony then
    pa <- point_of (ant_place_name Md ant) ;;
    let start := shift_point X pa LEAF_START_OFFSET in
    ph <- point_of (place_name (hive colony)) ;;
    pa' <- point_of (ant_place_name Md ant) ;;
    let end_ := shift_point X (ph.1, pa'.2) LEAF_END_OFFSET in
    animate_dart X (to_fpoint start) (to_fpoint end_) (1 # 2) "Black" ;;
    ret tt
  else ret tt.

(** The end of [strategy] (lines 184-190): the ants of the colony and the
    ants they hold throw, in this order. *)
Definition throw_leaves (colony : Colony) : M unit :=
  let ants := colony_ants Md colony in
  for_each (ants ++ omap ant_ant ants) (λ ant,
    if decide (is_Some (assoc (ant_name ant) LEAF_COLORS)) then _throw ant colony
    else if decide (ant_name ant = "Ninja") then _throw_dart ant colony
    else ret tt).

End Throwing.

(** ** More vocabulary *)

(** The layout: the click rectangles, the frames of the control panel
    and the points of the places. *)
Definition layout (g : GUI) : list ClickRect * list (string * shape) * gmap string point :=
  (_click_rectangles g, ant_type_frames g, place_points g).

(** What the initialization sets up and a turn relies on: the flag and
    the layout. *)
Definition setup (g : GUI) :=
  (initialized g, layout g).

(** The texts that the commands [l] write into text items. *)
Definition edits (l : list Op) : list (shape * string) :=
  omap (λ op, match op with OpEditText id t => Some (id, t) | _ => None end) l.

(** The polygons that the commands [l] draw. *)
Definition polygons (l : list Op) : list shape :=
  omap (λ op, match op with OpDrawPolygon id _ _ _ _ => Some id | _ => None end) l.


(** The commands [new] took the canvas from [g] to [g']; every polygon
    they draw is new and is cleared by exactly one timer among them. *)
Definition cleared_once (g : GUI) (new : list Op) (g' : GUI) : Prop :=
  ops (canvas g') = ops (canvas g) ++ new ∧
  next_id (canvas g) ≤ next_id (canvas g') ∧
  NoDup (polygons new) ∧
  (∀ id, id ∈ polygons new →
         next_id (canvas g) ≤ id < next_id (canvas g') ∧
         ∃ ms, clear_commands id new = [OpAfterClear ms id]) ∧
  (∀ id, id ∉ polygons new → clear_commands id new = []).



(** The names of the places that get a rectangle, in the order of
    [colony.places]. *)
Definition shown_names (c : Colony) : list string :=
  List.filter (λ n, bool_decide (n ≠ "Hive")) (place_name <$> places c).

(** The body of the loop of [_update_control_panel]. *)
Abbreviation panel_body c :=
  (λ '(name, frame),
    cost <- match assoc name (ant_types c) with
            | Some c => ret c
            | None => raise (KeyError (key_str name))
            end ;;
    selected <- gets ant_type_selected ;;
    color <- (if decide (Z.gt cost (food c)) then ret "Gray"
              else if decide (Some name = selected)
                   then txt <- gets ant_text ;;
                        edit_text txt ("Ant selected: " +:+ name) ;;
                        ret "Blue"
                   else ret "White") ;;
    itemconfigure frame color).

(** ** More colonies and states, for examples *)

Module Scenes.
Import Examples.

(** The backend and the user of [ext0], with a model that refuses every
    removal. *)
Definition ext_locked : Externals :=
  mkExternals (shift_point ext0) (randint ext0) (wait_for_click ext0)
    (deploy_ant ext0) (λ _ c, (Raise (ModelError "This ant cannot be removed"), c))
    (FRAME_TIME ext0) (pi ext0) (translate_point ext0) (shift_fpoint ext0).

Definition col_two_types : Colony :=
  mkColony [] (the_hive []) 2 0 [("Thrower", 3%Z); ("Long", 2%Z)].

(** A tunnel that leads nowhere. *)
Definition col_no_exit : Colony := colony_of [mkPlace "tunnel_0_0" None None []] [].

Definition gui_ready : GUI := set_initialized true gui_start.
Definition gui_panel : GUI := (_init_control_panel ext0 col_start gui0).2.

(** A rectangle away from the click, the rectangle of a place, and a
    rectangle over it. *)
Definition rect_far : ClickRect := mkRect (100, 100)%Z 10 10 1 (select_ant_type "Thrower").
Definition rect_tunnel : ClickRect := mkRect (0, 0)%Z 10 10 2 (click_place "tunnel_0_0").
Definition rect_over : ClickRect := mkRect (0, 0)%Z 20 20 3 (select_ant_type "Long").
Definition gui_remover : GUI :=
  set_ant_type_selected (Some "Remover")
    (set_click_rectangles [rect_far; rect_tunnel; rect_over] gui0).

(** A thrower at the end of the tunnel and a bee at its entrance. *)
Definition col_thrower : Colony :=
  colony_of [the_hive []; tunnel0 (Some thrower) []; tunnel1 None [bee1]] [].
Definition model_near : Model :=
  mkModel (λ c, omap place_ant (places c)) (λ _, "tunnel_0_0") (λ _ _, Some bee1)
          (λ _, "tunnel_0_1") (λ _ _, true).
Definition model_quiet : Model :=
  mkModel (λ c, omap place_ant (places c)) (λ _, "tunnel_0_0") (λ _ _, None)
          (λ _, "tunnel_0_1") (λ _ _, false).

End Scenes.

(** * Properties *)

(** ** The tracker as a mapping *)

Lemma tracked_true im n i : tracked im n i = true ↔ is_Some (handle im n i).
Proof.
  unfold tracked, handle. destruct (im !! n) as [d|]; simpl.
  - rewrite bool_decide_eq_true. done.
  - split; [done | by intros [? ?]].
Qed.

Lemma tracked_false im n i : tracked im n i = false ↔ handle im n i = None.
Proof.
  rewrite <- not_true_iff_false, tracked_true, <- eq_None_not_Some. done.
Qed.

Lemma tracked_known im n i : tracked im n i = true → known im n.
Proof. unfold tracked, known. destruct (im !! n); [eauto | done]. Qed.

Lemma handle_store im n i h n' i' :
  handle (im_store n i h im) n' i' =
  if decide (n' = n ∧ i' = i ∧ known im n) then Some h else handle im n' i'.
Proof.
  unfold handle, im_store, known. rewrite lookup_alter.
  destruct (decide (n = n')) as [->|Hn].
  - destruct (im !! n') as [d|] eqn:E; simpl.
    + destruct (decide (i' = i)) as [->|Hi].
      * rewrite lookup_insert_eq. rewrite decide_True; eauto.
      * rewrite lookup_insert_ne by done. rewrite decide_False; [done | naive_solver].
    + rewrite decide_False; [done | intros (_ & _ & [? ?]); done].
  - rewrite decide_False; [done | naive_solver].
Qed.

Lemma handle_pop im n i n' i' :
  handle (im_pop n i im) n' i' =
  if decide (n' = n ∧ i' = i) then None else handle im n' i'.
Proof.
  unfold handle, im_pop. rewrite lookup_alter.
  destruct (decide (n = n')) as [->|Hn].
  - destruct (im !! n') as [d|] eqn:E; simpl.
    + destruct (decide (i' = i)) as [->|Hi].
      * rewrite lookup_delete_eq. rewrite decide_True; eauto.
      * rewrite lookup_delete_ne by done. rewrite decide_False; [done | naive_solver].
    + by destruct (decide _).
  - rewrite decide_False; [done | naive_solver].
Qed.

Lemma known_store im n i h n' : known (im_store n i h im) n' ↔ known im n'.
Proof.
  unfold known, im_store. rewrite lookup_alter.
  destruct (decide (n = n')) as [->|]; [|done]. by rewrite fmap_is_Some.
Qed.

Lemma known_pop im n i n' : known (im_pop n i im) n' ↔ known im n'.
Proof.
  unfold known, im_pop. rewrite lookup_alter.
  destruct (decide (n = n')) as [->|]; [|done]. by rewrite fmap_is_Some.
Qed.

Lemma tracked_store im n i h n' i' :
  tracked (im_store n i h im) n' i' = true ↔
  (n' = n ∧ i' = i ∧ known im n) ∨ tracked im n' i' = true.
Proof.
  rewrite !tracked_true, handle_store. case_decide; [|naive_solver].
  split; [eauto | intros _; eauto].
Qed.

Lemma tracked_pop im n i n' i' :
  tracked (im_pop n i im) n' i' = true ↔
  tracked im n' i' = true ∧ ¬ (n' = n ∧ i' = i).
Proof.
  rewrite !tracked_true, handle_pop. case_decide.
  - split; [by intros [? ?] | naive_solver].
  - naive_solver.
Qed.

Lemma insert_as_alter (im : Images) n d (f : gmap insect shape → gmap insect shape) :
  im !! n = Some d → <[n := f d]> im = alter f n im.
Proof.
  intros E. apply map_eq. intros n'. rewrite lookup_alter, lookup_insert.
  case_decide; subst; by rewrite ?E.
Qed.

#[local] Instance keeps_container_refl n : Reflexive (keeps_container n).
Proof. by intros g i. Qed.
#[local] Instance keeps_container_trans n : Transitive (keeps_container n).
Proof. intros g1 g2 g3 H1 H2 i ?. by apply H2, H1. Qed.
#[local] Instance evolves_refl c p : Reflexive (evolves c p).
Proof. intros g. apply rtc_refl. Qed.
#[local] Instance evolves_trans c p : Transitive (evolves c p).
Proof. intros g1 g2 g3. apply rtc_trans. Qed.
#[local] Instance shrinks_refl : Reflexive shrinks.
Proof. by intros g n i. Qed.
#[local] Instance shrinks_trans : Transitive shrinks.
Proof. intros g1 g2 g3 H1 H2 n i ?. by apply H1, H2. Qed.

(** ** The stages of [update_place] *)

Section Reconciler.
Variable X : Externals.

Lemma pop_image_run n i g :
  pop_image n i g =
  match images g !! n with
  | None => (Raise (KeyError (key_str n)), g)
  | Some d => match d !! i with
              | Some h => (Ok h, set_images (im_pop n i (images g)) g)
              | None => (Raise (KeyError (key_insect i)), g)
              end
  end.
Proof.
  unfold pop_image, images_at, bind. destruct (images g !! n) as [d|] eqn:E; [|done].
  destruct (d !! i); [|done]. unfold modify, ret, im_pop; simpl.
  by rewrite (insert_as_alter _ _ _ (λ d, delete i d) E).
Qed.

Lemma store_image_run n i h g :
  store_image n i h g =
  match images g !! n with
  | None => (Raise (KeyError (key_str n)), g)
  | Some d => (Ok tt, set_images (im_store n i h (images g)) g)
  end.
Proof.
  unfold store_image, images_at, bind. destruct (images g !! n) as [d|] eqn:E; [|done].
  unfold modify, im_store; simpl.
  by rewrite (insert_as_alter _ _ _ (λ d, <[i:=h]> d) E).
Qed.

Lemma handle_lookup im n d i : im !! n = Some d → handle im n i = d !! i.
Proof. unfold handle. by intros ->. Qed.

Lemma not_ant_error_str s : ¬ ant_error (KeyError (key_str s)).
Proof. by intros [? ?]. Qed.
Lemma not_ant_error_bee b : ¬ ant_error (KeyError (key_insect (bee_key b))).
Proof. by intros [? ?]. Qed.

Lemma arrive_outcome c p b g r g' :
  arrive X c p b g = (r, g') →
  let src := place_name (source_of c p) in
  (images g' = images g ∧ handle (images g) src (bee_key b) = None ∧
     ∃ e, r = Raise e ∧ ¬ ant_error e) ∨
  (∃ h, handle (images g) src (bee_key b) = Some h ∧
        images g' = im_pop src (bee_key b) (images g) ∧
        ∃ e, r = Raise e ∧ ¬ ant_error e) ∨
  (∃ h, handle (images g) src (bee_key b) = Some h ∧
        images g' = im_store (place_name p) (bee_key b) h
                      (im_pop src (bee_key b) (images g)) ∧
        known (images g) (place_name p) ∧
        r = Ok tt).
Proof.
  intros H src. unfold arrive in H. fold src in H. unfold bind at 1 in H.
  rewrite pop_image_run in H.
  destruct (images g !! src) as [d|] eqn:E.
  2:{ simplify_eq. left. split_and!; [done | by unfold handle; rewrite E |].
      eauto using not_ant_error_str. }
  rewrite <- (handle_lookup _ _ _ (bee_key b) E) in H.
  destruct (handle (images g) src (bee_key b)) as [h|] eqn:Eh.
  2:{ simplify_eq. left. split_and!; [done..|]. eauto using not_ant_error_bee. }
  right. unfold bind at 1, point_of in H. simpl in H.
  destruct (place_points g !! place_name p) as [pt|].
  2:{ simplify_eq. left. exists h. split_and!; [done..|]. eauto using not_ant_error_str. }
  unfold bind, slide_shape, emit, modify in H. simpl in H.
  rewrite store_image_run in H. simpl in H.
  destruct (im_pop src (bee_key b) (images g) !! place_name p) as [d'|] eqn:E';
    simplify_eq.
  - right. exists h. split_and!; [done..| |done].
    eapply known_pop. by eexists.
  - left. exists h. split_and!; [done..|]. eauto using not_ant_error_str.
Qed.

Lemma draw_insect_outcome i n ro behind g r g' :
  _draw_insect X i n ro behind g = (r, g') →
  (images g' = images g ∧ ∃ s, r = Raise (KeyError (key_str s))) ∨
  (∃ h, known (images g) n ∧ r = Ok tt ∧
        images g' = im_store n (insect_key i) h (images g)).
Proof.
  unfold _draw_insect. intros H. unfold bind at 1 in H.
  destruct (assoc (insect_name i) INSECT_FILES) as [f|]; simpl in H.
  2:{ simplify_eq. left. eauto. }
  unfold bind at 1, point_of in H.
  destruct (place_points g !! n) as [pt|]; simpl in H.
  2:{ simplify_eq. left. eauto. }
  destruct ro; unfold bind, random_randint, ret, draw_image, fresh_shape in H;
    simpl in H; rewrite store_image_run in H; simpl in H;
    destruct (images g !! n) as [d|] eqn:E; simplify_eq; simpl;
    first [ by left; eauto | right; eexists; split_and!; [by eexists | done..] ].
Qed.

Lemma for_each_cons {A} (x : A) l body g :
  for_each (x :: l) body g =
  match body x g with
  | (Ok _, g1) => for_each l body g1
  | (Raise e, g1) => (Raise e, g1)
  end.
Proof. done. Qed.

(** A relation between states that every iteration respects is respected
    by the loop. *)
Lemma for_each_rel {A} (R : GUI → GUI → Prop) `{!Reflexive R, !Transitive R}
    (l : list A) body :
  (∀ x g r g', x ∈ l → body x g = (r, g') → R g g') →
  ∀ g r g', for_each l body g = (r, g') → R g g'.
Proof.
  induction l as [|x l IH]; intros Hb g r g' H.
  - unfold for_each, ret in H. by simplify_eq.
  - rewrite for_each_cons in H. destruct (body x g) as [[[]|e] g1] eqn:E.
    + etrans; [eapply Hb; [left | done] |].
      eapply IH; [|done]. intros. eapply Hb; [by right | done].
    + simplify_eq. eapply Hb; [left | done].
Qed.

(** Errors of a loop are errors of an iteration. *)
Lemma for_each_error {A} (P : exn → Prop) (l : list A) body :
  (∀ x g e g', x ∈ l → body x g = (Raise e, g') → P e) →
  ∀ g e g', for_each l body g = (Raise e, g') → P e.
Proof.
  induction l as [|x l IH]; intros Hb g e g' H.
  - done.
  - rewrite for_each_cons in H. destruct (body x g) as [[[]|e1] g1] eqn:E.
    + eapply IH; [|done]. intros. eapply Hb; [by right | done].
    + simplify_eq. eapply Hb; [left | done].
Qed.

(** A loop that ends normally: an invariant [I], and a fact [Q x] gained
    at the iteration of [x] and kept by the later ones. *)
Lemma for_each_ok {A} (I : GUI → Prop) (Q : A → GUI → Prop) (l : list A) body :
  (∀ x g g', x ∈ l → I g → body x g = (Ok tt, g') → I g' ∧ Q x g') →
  (∀ x y g g', y ∈ l → I g → Q x g → body y g = (Ok tt, g') → Q x g') →
  ∀ g g', I g → for_each l body g = (Ok tt, g') → I g' ∧ ∀ x, x ∈ l → Q x g'.
Proof.
  intros Hb Hq.
  assert (∀ (P : GUI → Prop) l',
    (∀ y, y ∈ l' → y ∈ l) →
    (∀ y g g', y ∈ l' → I g → P g → body y g = (Ok tt, g') → P g') →
    ∀ g g', I g → P g → for_each l' body g = (Ok tt, g') →
            I g' ∧ P g' ∧ ∀ x, x ∈ l' → Q x g') as Hgen.
  { intros P l'. revert P. induction l' as [|x l' IH]; intros P Hsub HP g g' HI HPg H.
    - unfold for_each, ret in H. simplify_eq.
      split_and!; [done..|]. by intros ? ?%elem_of_nil.
    - rewrite for_each_cons in H. destruct (body x g) as [[[]|e] g1] eqn:E; [|done].
      destruct (Hb x g g1) as [HI1 HQ1]; [apply Hsub; left | done..|].
      destruct (IH (λ g, P g ∧ Q x g)) with (g := g1) (g' := g') as (? & [? ?] & ?).
      + intros. apply Hsub. by right.
      + intros y g2 g3 Hy HI2 [HP2 HQ2] E2. split.
        * eapply (HP y g2 g3); [by right | done..].
        * eapply (Hq x y g2 g3); [apply Hsub; by right | done..].
      + done.
      + split; [|done]. eapply (HP x g g1); [left | done..].
      + done.
      + split_and!; [done..|]. intros y [->|Hy]%elem_of_cons; eauto. }
  intros g g' HI H.
  destruct (Hgen (λ _, True) l) with (g := g) (g' := g') as (? & _ & ?); eauto.
Qed.

(** A loop of iterations without effect has no effect. *)
Lemma for_each_skip {A} (l : list A) body g :
  (∀ x, x ∈ l → body x g = (Ok tt, g)) → for_each l body g = (Ok tt, g).
Proof.
  induction l as [|x l IH]; intros Hb; [done|].
  rewrite for_each_cons, Hb by left. apply IH. intros. apply Hb. by right.
Qed.

Lemma image_of_outcome n i g r g' :
  image_of n i g = (r, g') →
  g' = g ∧
  ((∃ h, r = Ok h ∧ handle (images g) n i = Some h) ∨
   r = Raise (KeyError (key_str n)) ∨
   (r = Raise (KeyError (key_insect i)) ∧ tracked (images g) n i = false)).
Proof.
  unfold image_of, images_at, bind. intros H.
  destruct (images g !! n) as [d|] eqn:E; [|simplify_eq; eauto].
  pose proof (handle_lookup _ _ _ i E) as Hh.
  destruct (d !! i) as [h|] eqn:Ei; unfold ret, raise in H; simplify_eq.
  - split; [done|]. left. eauto.
  - split; [done|]. right. right. by rewrite tracked_false.
Qed.

(** The pattern [if insect not in current: self._draw_insect(insect, ...)]. *)
Lemma draw_missing_outcome (a : Ant) n behind g r g' :
  (inside <- gets (λ g, tracked (images g) n (ant_key a)) ;;
   if inside then ret tt else _draw_insect X (of_ant a) n false behind) g = (r, g') →
  (tracked (images g) n (ant_key a) = true ∧ g' = g ∧ r = Ok tt) ∨
  (tracked (images g) n (ant_key a) = false ∧ images g' = images g ∧
     ∃ s, r = Raise (KeyError (key_str s))) ∨
  (tracked (images g) n (ant_key a) = false ∧
     ∃ h, known (images g) n ∧ r = Ok tt ∧
          images g' = im_store n (ant_key a) h (images g)).
Proof.
  unfold bind, gets. simpl. destruct (tracked (images g) n (ant_key a)) eqn:E.
  - unfold ret. intros; simplify_eq. by left.
  - intros [[? ?]|(h & ? & ? & ?)]%draw_insect_outcome; right; [left | right]; eauto.
Qed.

Lemma add_missing_ants_outcome c p g r g' :
  add_missing_ants X p g = (r, g') →
  rtc (step c p) (images g) (images g') ∧
  (r = Ok tt → ∀ a, a ∈ occupants p →
     tracked (images g') (place_name p) (ant_key a) = true) ∧
  (∀ e, r = Raise e → ant_error e →
     ∃ a q, place_ant p = Some a ∧ passenger a = Some q ∧
            tracked (images g) (place_name p) (ant_key q) = false ∧
            tracked (images g) (place_name p) (ant_key a) = false).
Proof.
  unfold add_missing_ants, occupants. destruct (place_ant p) as [a|] eqn:Ea.
  2:{ unfold ret. intros; simplify_eq. split_and!; [done | | done].
      by intros _ ? ?%elem_of_nil. }
  set (n := place_name p).
  assert (∀ g r g',
    (inside <- gets (λ g, tracked (images g) n (ant_key a)) ;;
     if inside then ret tt else _draw_insect X (of_ant a) n false 0) g = (r, g') →
    rtc (step c p) (images g) (images g') ∧
    (r = Ok tt → tracked (images g') n (ant_key a) = true ∧
       ∀ i, tracked (images g) n i = true → tracked (images g') n i = true) ∧
    (∀ e, r = Raise e → ¬ ant_error e)) as Hant.
  { intros g1 r1 g2 [(? & -> & ->)|[(? & -> & s & ->)|(? & h & ? & -> & ->)]]%draw_missing_outcome.
    - done.
    - split_and!; [done | done |]. intros; simplify_eq. apply not_ant_error_str.
    - split_and!; [| |done].
      + apply rtc_once. apply step_draw; [|done]. unfold occupants. rewrite Ea. left.
      + intros _. split; [rewrite tracked_store; by left |].
        intros i ?. rewrite tracked_store. by right. }
  destruct (passenger a) as [q|] eqn:Eq.
  2:{ unfold bind at 1, ret at 1. intros H. apply Hant in H as (? & Hok & Herr).
      split_and!; [done | |].
      - intros -> a' ->%list_elem_of_singleton. by destruct (Hok eq_refl).
      - intros e -> ?. by destruct (Herr e). }
  unfold bind at 1. unfold bind at 1, gets at 1. simpl.
  destruct (tracked (images g) n (ant_key q)) eqn:Etq.
  { unfold ret at 1. intros H. apply Hant in H as (? & Hok & Herr).
    split_and!; [done | |].
    - intros -> a' [-> | ->%list_elem_of_singleton]%elem_of_cons;
        destruct (Hok eq_refl); eauto.
    - intros e -> ?. by destruct (Herr e). }
  unfold bind at 1.
  destruct (image_of n (ant_key a) g) as [[ha|e] g1] eqn:Eim;
    apply image_of_outcome in Eim as [-> Him].
  2:{ intros; simplify_eq. split_and!; [done | done |].
      intros e' ? Herr; simplify_eq.
      destruct Him as [(? & ? & ?)|[?|[? ?]]]; simplify_eq.
      - by destruct (not_ant_error_str n).
      - eauto 10. }
  destruct Him as [(ha' & [= <-] & Hha)|[?|[? ?]]]; [|done..].
  destruct (_draw_insect X (of_ant q) n false ha g) as [[[]|e] g1] eqn:Edraw;
    apply draw_insect_outcome in Edraw as [[Himg (s & ?)]|(h & ? & ? & Himg)];
    simplify_eq.
  2:{ intros; simplify_eq. rewrite Himg. split_and!; [done | done |].
      intros ? ? ?; simplify_eq. by destruct (not_ant_error_str s). }
  intros Hrest. apply Hant in Hrest as (Hsteps & Hok & Herr).
  assert (tracked (images g1) n (ant_key q) = true) as Hq.
  { rewrite Himg. simpl. rewrite tracked_store. by left. }
  split_and!.
  - eapply rtc_l; [|done]. rewrite Himg. apply step_draw; [|done].
    unfold occupants. rewrite Ea, Eq. right. left.
  - intros -> a' [-> | ->%list_elem_of_singleton]%elem_of_cons;
      destruct (Hok eq_refl); eauto.
  - intros e -> ?. by destruct (Herr e).
Qed.

Lemma move_bee_outcome c p b g r g' :
  b ∈ place_bees p →
  move_bee X c p b g = (r, g') →
  evolves c p g g' ∧ keeps_container (place_name p) g g' ∧
  (r = Ok tt → tracked (images g') (place_name p) (bee_key b) = true) ∧
  (∀ e, r = Raise e → ¬ ant_error e).
Proof.
  intros Hb. unfold move_bee, bind, gets. simpl.
  destruct (tracked (images g) (place_name p) (bee_key b)) eqn:E.
  { unfold ret. intros; simplify_eq. done. }
  intros [(Hi & ? & e & -> & ?)|[(h & Hh & Hi & e & -> & ?)|(h & Hh & Hi & ? & ->)]]%arrive_outcome.
  - unfold evolves, keeps_container. rewrite Hi. split_and!; [done | done | done |].
    intros; by simplify_eq.
  - assert (place_name (source_of c p) ≠ place_name p) as Hne.
    { intros Heq. rewrite Heq in Hh. apply tracked_false in E. congruence. }
    unfold evolves, keeps_container. rewrite Hi. split_and!; [| | done |].
    + apply rtc_once. by eapply step_take.
    + intros i ?. rewrite tracked_pop. naive_solver.
    + intros; by simplify_eq.
  - assert (place_name (source_of c p) ≠ place_name p) as Hne.
    { intros Heq. rewrite Heq in Hh. apply tracked_false in E. congruence. }
    unfold evolves, keeps_container. rewrite Hi. split_and!; [| | | done].
    + apply rtc_once. by eapply step_move.
    + intros i ?. rewrite tracked_store, tracked_pop. naive_solver.
    + intros _. rewrite tracked_store. left. split_and!; [done..|].
      by rewrite known_pop.
Qed.

Lemma move_bees_outcome c p g r g' :
  move_bees X c p g = (r, g') →
  evolves c p g g' ∧ keeps_container (place_name p) g g' ∧
  (r = Ok tt → ∀ b, b ∈ place_bees p →
     tracked (images g') (place_name p) (bee_key b) = true) ∧
  (∀ e, r = Raise e → ¬ ant_error e).
Proof.
  unfold move_bees. intros H. split_and!.
  - eapply (for_each_rel (evolves c p)); [|done].
    intros b ? ? ? Hb Hrun. by apply (move_bee_outcome _ _ _ _ _ _ Hb Hrun).
  - eapply (for_each_rel (keeps_container (place_name p))); [|done].
    intros b ? ? ? Hb Hrun. by apply (move_bee_outcome _ _ _ _ _ _ Hb Hrun).
  - intros ->.
    eapply (for_each_ok (λ _, True)
              (λ b g, tracked (images g) (place_name p) (bee_key b) = true)); [| |done|done].
    + intros b ? ? Hb _ Hrun. split; [done|].
      by apply (move_bee_outcome _ _ _ _ _ _ Hb Hrun).
    + intros b b' ? ? Hb' _ Hq Hrun.
      by apply (move_bee_outcome _ _ _ _ _ _ Hb' Hrun).
  - intros e ->. revert H. apply (for_each_error (λ e, ¬ ant_error e)).
    intros b ? ? ? Hb Hrun. by apply (move_bee_outcome _ _ _ _ _ _ Hb Hrun).
Qed.

Lemma retire_outcome p i g r g' :
  retire p i g = (r, g') →
  (r = Ok tt ∧ g' = g ∧ ∃ e, place_exit p = Some e ∧ tracked (images g) e i = true) ∨
  (images g' = images g ∧
     ((∃ s, r = Raise (KeyError (key_str s))) ∨
      (r = Raise (KeyError (key_insect i)) ∧
       tracked (images g) (place_name p) i = false))) ∨
  (expired p i (images g) ∧ tracked (images g) (place_name p) i = true ∧
     images g' = im_pop (place_name p) i (images g) ∧
     (r = Ok tt ∨ ∃ s, r = Raise (KeyError (key_str s)))).
Proof.
  unfold retire. set (n := place_name p). intros H.
  assert (∀ g0 r0 g1,
    (image <- pop_image n i ;; pt <- point_of n ;;
     slide_shape image (pt.1, CRYPT) STRATEGY_SECONDS) g0 = (r0, g1) →
    (images g1 = images g0 ∧
       ((∃ s, r0 = Raise (KeyError (key_str s))) ∨
        (r0 = Raise (KeyError (key_insect i)) ∧ tracked (images g0) n i = false))) ∨
    (tracked (images g0) n i = true ∧ images g1 = im_pop n i (images g0) ∧
       (r0 = Ok tt ∨ ∃ s, r0 = Raise (KeyError (key_str s))))) as Hpop.
  { intros g0 r0 g1. unfold bind at 1. rewrite pop_image_run.
    destruct (images g0 !! n) as [d|] eqn:E; [|intros; simplify_eq; left; eauto].
    pose proof (handle_lookup _ _ _ i E) as Hh.
    destruct (d !! i) as [h|] eqn:Ei.
    2:{ intros; simplify_eq. left. split; [done|]. right. by rewrite tracked_false. }
    unfold bind, point_of. simpl.
    assert (tracked (images g0) n i = true) by (rewrite tracked_true, Hh; eauto).
    destruct (place_points g0 !! n) as [pt|]; unfold slide_shape, emit, modify;
      intros; simplify_eq; right; simpl; eauto 10. }
  unfold bind at 1 in H. destruct (place_exit p) as [en|] eqn:Ee.
  2:{ unfold ret at 1 in H. apply Hpop in H as [?|(? & ? & ?)]; [by right; left|].
      right. right. split_and!; [|done..]. intros ? ?. congruence. }
  unfold bind at 1, images_at in H.
  destruct (images g !! en) as [d|] eqn:E; [|simplify_eq; right; left; eauto].
  unfold ret at 1 in H. pose proof (handle_lookup _ _ _ i E) as Hh.
  destruct (bool_decide (is_Some (d !! i))) eqn:Eb; simpl in H.
  - unfold ret in H. simplify_eq. left. split_and!; [done..|]. exists en. split; [done|].
    apply bool_decide_eq_true in Eb. by rewrite tracked_true, Hh.
  - apply Hpop in H as [?|(? & ? & ?)]; [by right; left|].
    right. right. split_and!; [|done..]. intros e He. rewrite Ee in He. simplify_eq.
    apply bool_decide_eq_false in Eb. rewrite tracked_false, Hh.
    by apply eq_None_not_Some.
Qed.

Lemma for_each_error_inv {A} (I : list A → GUI → Prop) (P : exn → Prop) body :
  (∀ x l g r g', I (x :: l) g → body x g = (r, g') →
     match r with Ok _ => I l g' | Raise e => P e end) →
  ∀ l g e g', I l g → for_each l body g = (Raise e, g') → P e.
Proof.
  intros Hb l. induction l as [|x l IH]; intros g e g' HI H; [done|].
  rewrite for_each_cons in H. destruct (body x g) as [[[]|e1] g1] eqn:E.
  - eapply IH; [|done]. by apply (Hb _ _ _ _ _ HI E).
  - simplify_eq. by apply (Hb _ _ _ _ _ HI E).
Qed.

Lemma tracked_dom im n d i : im !! n = Some d → tracked im n i = true ↔ i ∈ dom d.
Proof.
  intros E. unfold tracked. rewrite E, bool_decide_eq_true. by rewrite elem_of_dom.
Qed.

Lemma remove_expired_outcome c p g r g' :
  remove_expired p g = (r, g') →
  evolves c p g g' ∧ shrinks g g' ∧
  (∀ i, i ∈ valid_insects p → tracked (images g) (place_name p) i = true →
        tracked (images g') (place_name p) i = true) ∧
  (r = Ok tt → tracked_once (images g) →
     ∀ i, tracked (images g') (place_name p) i = true →
          i ∈ valid_insects p ∨ place_exit p = Some (place_name p)) ∧
  (∀ e, r = Raise e → ¬ ant_error e).
Proof.
  unfold remove_expired. set (n := place_name p). unfold bind, images_at.
  destruct (images g !! n) as [d|] eqn:E.
  2:{ intros; simplify_eq. split_and!; [done..| |].
      - done.
      - intros; simplify_eq. apply not_ant_error_str. }
  set (l := elements (dom d ∖ valid_insects p)). intros H.
  assert (∀ i, i ∈ l ↔ tracked (images g) n i = true ∧ i ∉ valid_insects p) as Hl.
  { intros i. unfold l. rewrite elem_of_elements, elem_of_difference.
    by rewrite (tracked_dom _ _ _ _ E). }
  split_and!.
  - eapply (for_each_rel (evolves c p)); [|done].
    intros i g0 r0 g1 Hi [(-> & -> & _)|[[Him _]|(? & ? & Him & _)]]%retire_outcome;
      unfold evolves; [done | by rewrite Him |].
    rewrite Him. apply rtc_once. apply step_retire; [done | by apply Hl | done].
  - eapply (for_each_rel shrinks); [|done].
    intros i g0 r0 g1 Hi [(-> & -> & _)|[[Him _]|(? & ? & Him & _)]]%retire_outcome;
      unfold shrinks; [done | by rewrite Him |].
    rewrite Him. intros ? ?. rewrite tracked_pop. naive_solver.
  - set (R := λ g g' : GUI, ∀ i, i ∈ valid_insects p →
              tracked (images g) n i = true → tracked (images g') n i = true).
    assert (Reflexive R) by (by intros ? ? ?).
    assert (Transitive R) by (intros g1 g2 g3 H1 H2 i ? ?; by apply H2, H1).
    eapply (for_each_rel R); [|done]. unfold R.
    intros i g0 r0 g1 Hi [(-> & -> & _)|[[Him _]|(? & ? & Him & _)]]%retire_outcome;
      [done | by rewrite Him |].
    rewrite Him. intros i' ? ?. rewrite tracked_pop. split; [done|].
    intros [_ ->]. by apply Hl in Hi as [_ ?].
  - intros -> Honce.
    set (I := λ g1 : GUI, tracked_once (images g1) ∧ shrinks g g1).
    set (Q := λ (i : insect) (g1 : GUI),
                tracked (images g1) n i = true → place_exit p = Some n).
    assert (∀ i g0 g1, i ∈ l → I g0 → retire p i g0 = (Ok tt, g1) → I g1 ∧ Q i g1) as Hb.
    { intros i g0 g1 Hi [Ho Hs]
        [(_ & -> & e & He & Hte)|[[_ [[? ?]|[? _]]]|(? & Htr & Him & _)]]%retire_outcome;
        [|done..|].
      - split; [done|]. intros Hti. by rewrite He, (Ho _ _ _ Hte Hti).
      - unfold I, Q, shrinks, tracked_once. rewrite Him. split_and!.
        + intros ? ? ?. rewrite !tracked_pop. intros [? _] [? _]. eauto.
        + intros ? ? [? _]%tracked_pop. by apply Hs.
        + rewrite tracked_pop. naive_solver. }
    assert (∀ i i' g0 g1, i' ∈ l → I g0 → Q i g0 → retire p i' g0 = (Ok tt, g1) → Q i g1)
      as Hq.
    { intros i i' g0 g1 Hi' [Ho Hs] HQ
        [(_ & -> & _)|[[_ [[? ?]|[? _]]]|(_ & _ & Him & _)]]%retire_outcome; [done..|].
      unfold Q. rewrite Him, tracked_pop. naive_solver. }
    assert (I g) as HI by done.
    destruct (for_each_ok I Q l (retire p) Hb Hq g g' HI H) as [[_ Hshr] HQ].
    intros i Hi. destruct (decide (i ∈ valid_insects p)); [by left|].
    right. apply (HQ i); [|done]. apply Hl. split; [|done]. by apply Hshr.
  - intros e ->. revert H.
    apply (for_each_error_inv
             (λ l g, NoDup l ∧ ∀ i, i ∈ l → tracked (images g) n i = true)
             (λ e, ¬ ant_error e)).
    + intros i l' g0 r0 g1 [[Hni Hnd]%NoDup_cons Htr]
        [(-> & -> & _)|[[Him [[s ->]|[-> Hf]]]|(_ & _ & Him & Hr)]]%retire_outcome.
      * split; [done|]. intros ? ?. apply Htr. by right.
      * apply not_ant_error_str.
      * rewrite Htr in Hf by left. done.
      * assert (NoDup l' ∧ ∀ i', i' ∈ l' → tracked (images g1) n i' = true).
        { split; [done|]. intros i' Hi'. rewrite Him, tracked_pop.
          split; [apply Htr; by right|]. intros [_ ->]. done. }
        destruct Hr as [->|[s ->]]; [done | apply not_ant_error_str].
    + split; [apply NoDup_elements|]. intros i Hi. by apply Hl.
Qed.

Lemma add_missing_ants_settled p g :
  (∀ a, a ∈ occupants p → tracked (images g) (place_name p) (ant_key a) = true) →
  add_missing_ants X p g = (Ok tt, g).
Proof.
  unfold add_missing_ants, occupants. destruct (place_ant p) as [a|]; [|done].
  intros H. unfold bind at 1. destruct (passenger a) as [q|].
  - unfold bind at 1, gets at 1. simpl. rewrite (H q) by (right; left).
    unfold ret at 1, bind, gets. simpl. by rewrite (H a) by left.
  - unfold ret at 1, bind, gets. simpl. by rewrite (H a) by left.
Qed.

Lemma move_bees_settled c p g :
  (∀ b, b ∈ place_bees p → tracked (images g) (place_name p) (bee_key b) = true) →
  move_bees X c p g = (Ok tt, g).
Proof.
  intros H. apply for_each_skip. intros b Hb.
  unfold move_bee, bind, gets. simpl. by rewrite H.
Qed.

Lemma remove_expired_settled p g :
  known (images g) (place_name p) →
  (∀ i, tracked (images g) (place_name p) i = true →
        i ∈ valid_insects p ∨ place_exit p = Some (place_name p)) →
  remove_expired p g = (Ok tt, g).
Proof.
  intros [d E] H. unfold remove_expired, bind at 1, images_at. rewrite E.
  apply for_each_skip. intros i [Hi Hv]%elem_of_elements%elem_of_difference.
  rewrite <- (tracked_dom _ _ _ _ E) in Hi.
  destruct (H i Hi) as [?|He]; [done|].
  unfold retire. rewrite He. unfold bind, images_at. rewrite E. simpl.
  rewrite (tracked_dom _ _ _ _ E), elem_of_dom in Hi.
  by rewrite bool_decide_eq_true_2.
Qed.

(** ** What a single update does to the tracker *)

Lemma occupants_valid p a : a ∈ occupants p → ant_key a ∈ valid_insects p.
Proof.
  unfold occupants, valid_insects. destruct (place_ant p) as [a0|]; [|by intros ?%elem_of_nil].
  destruct (passenger a0) as [q|]; set_solver.
Qed.

Lemma bees_valid p b : b ∈ place_bees p → bee_key b ∈ valid_insects p.
Proof.
  unfold valid_insects. intros Hb. apply elem_of_union_l, elem_of_list_to_set.
  by apply list_elem_of_fmap_2.
Qed.

Lemma step_known c p im im' n : step c p im im' → known im' n ↔ known im n.
Proof.
  intros []; rewrite ?known_store, ?known_pop; done.
Qed.

Lemma evolves_known c p im im' n : rtc (step c p) im im' → known im' n ↔ known im n.
Proof.
  induction 1 as [|im1 im2 im3 Hs _ IH]; [done|]. by rewrite IH, (step_known _ _ _ _ _ Hs).
Qed.

(** Other containers only lose bees that this place claims. *)
Lemma step_elsewhere c p im im' n i :
  step c p im im' → n ≠ place_name p →
  (∀ b, b ∈ place_bees p → bee_key b ≠ i) →
  handle im' n i = handle im n i.
Proof.
  intros Hs Hn Hb. destruct Hs as [a h ? ?|b h ? ? ?|b h ? ? ?|i' ? ? ?];
    rewrite ?handle_store, ?handle_pop; repeat case_decide; naive_solver.
Qed.

(** Other containers gain nothing. *)
Lemma step_only_here c p im im' n i :
  step c p im im' → n ≠ place_name p →
  tracked im' n i = true → tracked im n i = true.
Proof.
  intros Hs Hn. destruct Hs as [a h ? ?|b h ? ? ?|b h ? ? ?|i' ? ? ?];
    rewrite ?tracked_store, ?tracked_pop; naive_solver.
Qed.


Lemma step_tracked_once c p im im' :
  shown c p → tracked_once im → ants_at_home c im → step c p im im' →
  tracked_once im' ∧ ants_at_home c im'.
Proof.
  intros Hp Ho Hh Hs.
  destruct Hs as [a h Ha Ht|b h Hb Ht Hsrc|b h Hb Ht Hsrc|i' Ht Hv He].
  - destruct (Hh p a Hp Ha) as [Hhome Hdist]. split.
    + intros i n1 n2. rewrite !tracked_store.
      intros [(? & ? & _)|H1] [(? & ? & _)|H2]; simplify_eq; eauto.
      symmetry. eauto.
    + intros q a' Hq Ha'. destruct (Hh q a' Hq Ha') as [Hhome' Hdist']. split; [|done].
      intros n. rewrite tracked_store. intros [(-> & Hk & _)|?]; [|eauto].
      symmetry. by eapply Hdist.
  - split.
    + intros i n1 n2. rewrite !tracked_pop. intros [? _] [? _]. eauto.
    + intros q a' Hq Ha'. destruct (Hh q a' Hq Ha') as [Hhome' Hdist']. split; [|done].
      intros n [? _]%tracked_pop. eauto.
  - assert (∀ n, tracked im n (bee_key b) = true → n = place_name (source_of c p)) as Honly.
    { intros n Hn. eapply Ho; [done|]. rewrite tracked_true. eauto. }
    split.
    + intros i n1 n2. rewrite !tracked_store, !tracked_pop.
      intros [(? & ? & _)|[H1 N1]] [(? & ? & _)|[H2 N2]]; simplify_eq; eauto.
      * destruct N2. split; [|done]. eauto.
      * destruct N1. split; [|done]. eauto.
    + intros q a' Hq Ha'. destruct (Hh q a' Hq Ha') as [Hhome' Hdist']. split; [|done].
      intros n. rewrite tracked_store, tracked_pop. intros [(_ & ? & _)|[? _]]; [done|eauto].
  - split.
    + intros i n1 n2. rewrite !tracked_pop. intros [? _] [? _]. eauto.
    + intros q a' Hq Ha'. destruct (Hh q a' Hq Ha') as [Hhome' Hdist']. split; [|done].
      intros n [? _]%tracked_pop. eauto.
Qed.

Lemma evolves_tracked_once c p im im' :
  shown c p → tracked_once im → ants_at_home c im → rtc (step c p) im im' →
  tracked_once im' ∧ ants_at_home c im'.
Proof.
  intros Hp Ho Hh Hr. induction Hr as [|im1 im2 im3 Hs _ IH]; [done|].
  destruct (step_tracked_once _ _ _ _ Hp Ho Hh Hs). eauto.
Qed.

(** A place that is settled stays so while another place is updated. *)
Lemma step_settled c p q im im' :
  step c p im im' → place_name p ≠ place_name q →
  (∀ b b', b ∈ place_bees p → b' ∈ place_bees q → bee_key b ≠ bee_key b') →
  settled_at im q → settled_at im' q.
Proof.
  intros Hs Hn Hb (Hk & Ha & Hbq & Hv). split_and!.
  - by rewrite (step_known _ _ _ _ _ Hs).
  - intros a Hin. rewrite tracked_true, (step_elsewhere _ _ _ _ _ _ Hs), <- tracked_true;
      [eauto | done |]. by intros ? _.
  - intros b Hin. rewrite tracked_true, (step_elsewhere _ _ _ _ _ _ Hs), <- tracked_true;
      [eauto | done |]. intros b' ?. eauto.
  - intros i Hi. apply Hv. eapply step_only_here; [done | done | done].
Qed.

(** ** One place, then all places *)

Lemma update_place_hive c p g :
  place_name p = "Hive" → update_place X c p g = (Ok tt, g).
Proof. intros H. unfold update_place. by rewrite decide_True. Qed.

Lemma update_place_outcome c p g r g' :
  place_name p ≠ "Hive" → update_place X c p g = (r, g') →
  evolves c p g g' ∧
  (r = Ok tt →
     known (images g') (place_name p) ∧
     (∀ a, a ∈ occupants p → tracked (images g') (place_name p) (ant_key a) = true) ∧
     (∀ b, b ∈ place_bees p → tracked (images g') (place_name p) (bee_key b) = true)) ∧
  (r = Ok tt → (∀ g1, evolves c p g g1 → tracked_once (images g1)) →
     ∀ i, tracked (images g') (place_name p) i = true →
          i ∈ valid_insects p ∨ place_exit p = Some (place_name p)) ∧
  (∀ e, r = Raise e → ant_error e →
     ∃ a q, place_ant p = Some a ∧ passenger a = Some q ∧
            tracked (images g) (place_name p) (ant_key q) = false ∧
            tracked (images g) (place_name p) (ant_key a) = false).
Proof.
  intros Hn. unfold update_place. rewrite decide_False by done.
  unfold bind at 1, images_at.
  destruct (images g !! place_name p) as [d|] eqn:E.
  2:{ intros; simplify_eq. split_and!; [reflexivity | by intros; simplify_eq..|].
      by intros e [= <-] ?%not_ant_error_str. }
  unfold bind at 1.
  destruct (add_missing_ants X p g) as [[[]|e1] g1] eqn:E1;
    apply (add_missing_ants_outcome c) in E1 as (Hev1 & Hok1 & Herr1).
  2:{ intros; simplify_eq. split_and!; [done | by intros; simplify_eq..|].
      intros; simplify_eq. eauto. }
  unfold bind at 1.
  destruct (move_bees X c p g1) as [[[]|e2] g2] eqn:E2;
    apply move_bees_outcome in E2 as (Hev2 & Hkeep2 & Hok2 & Herr2).
  2:{ intros; simplify_eq. split_and!; [by etrans | by intros; simplify_eq..|].
      intros; simplify_eq. by destruct (Herr2 e). }
  intros (Hev3 & Hshr3 & Hkeep3 & Hok3 & Herr3)%(remove_expired_outcome c).
  assert (evolves c p g g') as Hev by (etrans; [done|]; by etrans).
  split_and!; [done | | |].
  - intros _. split_and!.
    + apply (evolves_known _ _ _ _ _ Hev). by eexists.
    + intros a Ha. apply Hkeep3; [by apply occupants_valid|]. apply Hkeep2. by apply Hok1.
    + intros b Hb. apply Hkeep3; [by apply bees_valid|]. by apply Hok2.
  - intros -> Honce. apply Hok3; [done|]. apply Honce. by trans g1.
  - intros e -> ?. by destruct (Herr3 e).
Qed.

Lemma update_place_settled c p g :
  place_name p ≠ "Hive" → settled_at (images g) p → update_place X c p g = (Ok tt, g).
Proof.
  intros Hn (Hk & Ha & Hb & Hv). unfold update_place. rewrite decide_False by done.
  unfold bind at 1, images_at. destruct Hk as [d E]. rewrite E.
  unfold bind at 1. rewrite add_missing_ants_settled by done.
  unfold bind at 1. rewrite move_bees_settled by done.
  apply remove_expired_settled; [|done]. by eexists.
Qed.
End Reconciler.

(** ** Passes of the reconciler *)

(** *** Invariants of computations *)

Lemma keeps_ret {A} I (a : A) : keeps I (ret a).
Proof. by intros g. Qed.
Lemma keeps_raise {A} I e : keeps I (@raise A e).
Proof. by intros g. Qed.
Lemma keeps_gets {A} I (f : GUI → A) : keeps I (gets f).
Proof. by intros g. Qed.
Lemma keeps_bind {A B} I (m : M A) (k : A → M B) :
  keeps I m → (∀ a, keeps I (k a)) → keeps I (bind m k).
Proof.
  intros Hm Hk g Hg. unfold bind. specialize (Hm g Hg).
  destruct (m g) as [[a|e] g1]; [by apply Hk | done].
Qed.
Lemma keeps_try_except {A} I (m : M A) h :
  keeps I m → (∀ e, keeps I (h e)) → keeps I (try_except m h).
Proof.
  intros Hm Hh g Hg. unfold try_except. specialize (Hm g Hg).
  destruct (m g) as [[a|e] g1]; [done | by apply Hh].
Qed.
Lemma keeps_for_each {A} I (l : list A) body :
  (∀ x, keeps I (body x)) → keeps I (for_each l body).
Proof.
  intros Hb. induction l as [|x l IH]; [apply keeps_ret|].
  apply keeps_bind; [apply Hb | by intros _].
Qed.
Lemma keeps_preserves {A B} (f : GUI → B) I (m : M A) :
  (∀ g g', f g' = f g → I g → I g') → preserves f m → keeps I m.
Proof. intros HI Hm g Hg. by apply (HI g), Hg. Qed.

Lemma preserves_images_fresh_shape mk : preserves images (fresh_shape mk).
Proof. done. Qed.
Lemma preserves_images_emit op : preserves images (emit op).
Proof. done. Qed.
Lemma preserves_images_add_click_rect pos w h cb color :
  preserves images (add_click_rect pos w h cb color).
Proof. done. Qed.

(** *** Components of the state that a computation leaves alone *)

Lemma preserves_ret {A B} (f : GUI → B) (a : A) : preserves f (ret a).
Proof. done. Qed.
Lemma preserves_raise {A B} (f : GUI → B) e : preserves f (@raise A e).
Proof. done. Qed.
Lemma preserves_gets {A B} (f : GUI → B) (h : GUI → A) : preserves f (gets h).
Proof. done. Qed.
Lemma preserves_bind {A B C} (f : GUI → C) (m : M A) (k : A → M B) :
  preserves f m → (∀ a, preserves f (k a)) → preserves f (bind m k).
Proof.
  intros Hm Hk g. unfold bind. specialize (Hm g).
  destruct (m g) as [[a|e] g1]; [by rewrite Hk | done].
Qed.
Lemma preserves_try_except {A C} (f : GUI → C) (m : M A) h :
  preserves f m → (∀ e, preserves f (h e)) → preserves f (try_except m h).
Proof.
  intros Hm Hh g. unfold try_except. specialize (Hm g).
  destruct (m g) as [[a|e] g1]; [done | by rewrite Hh].
Qed.
Lemma preserves_for_each {A C} (f : GUI → C) (l : list A) body :
  (∀ x, preserves f (body x)) → preserves f (for_each l body).
Proof.
  intros Hb. induction l as [|x l IH]; [done|].
  apply preserves_bind; [apply Hb | by intros _].
Qed.

(** Solves [preserves f m] for [m] built from computations that leave [f]
    alone by computation. *)
Ltac preserves_tac :=
  repeat first
    [ lazymatch goal with |- ∀ _, _ => intro end
    | apply preserves_ret | apply preserves_raise | apply preserves_gets
    | apply preserves_bind | apply preserves_for_each | apply preserves_try_except
    | assumption
    | match goal with
      | |- preserves _ (match ?x with _ => _ end) => destruct x
      | |- preserves _ (let '(_, _) := ?x in _) => destruct x
      | |- preserves _ (emit _) => by intros ?
      | |- preserves _ (edit_text _ _) => by intros ?
      | |- preserves _ (itemconfigure _ _) => by intros ?
      | |- preserves _ (slide_shape _ _ _) => by intros ?
      | |- preserves _ (print _) => by intros ?
      | |- preserves _ (modify _) => by intros ?
      | |- preserves _ (fresh_shape _) => by intros ?
      end ].

Section Passes.
Variable X : Externals.

Lemma update_places_tracked_once c g :
  tracked_once (images g) → ants_at_home c (images g) →
  tracked_once (images (_update_places X c g).2) ∧
  ants_at_home c (images (_update_places X c g).2).
Proof.
  set (R := λ g g' : GUI, tracked_once (images g) ∧ ants_at_home c (images g) →
                          tracked_once (images g') ∧ ants_at_home c (images g')).
  assert (Reflexive R) by (by intros ? ?).
  assert (Transitive R) by (intros g1 g2 g3 H1 H2 ?; by apply H2, H1).
  intros Ho Hh. destruct (_update_places X c g) as [r g'] eqn:E. simpl.
  eapply (for_each_rel R (places c) (update_place X c)); [|done|done].
  intros p g0 r0 g1 Hp Hrun [Ho0 Hh0].
  destruct (decide (place_name p = "Hive")) as [Hhive|Hhive].
  - rewrite update_place_hive in Hrun by done. by simplify_eq.
  - apply (update_place_outcome X c) in Hrun as [Hev _]; [|done].
    by apply (evolves_tracked_once c p (images g0)).
Qed.

Lemma tracked_insert_empty (im : Images) n n' i :
  tracked (<[n := ∅]> im) n' i = true → tracked im n' i = true.
Proof.
  unfold tracked. rewrite lookup_insert. case_decide; [|done].
  rewrite lookup_empty, bool_decide_eq_true. by intros [? ?].
Qed.

Lemma only_in_images n g g' : images g' = images g → only_in n g → only_in n g'.
Proof. unfold only_in. by intros ->. Qed.

Lemma keeps_only_in_insert_empty n n' :
  keeps (only_in n) (modify (λ g, set_images (<[n' := ∅]> (images g)) g)).
Proof. intros g Hg n1 i Hi%tracked_insert_empty. exact (Hg _ _ Hi). Qed.

Lemma init_places_loop_only_in n ps pos rows :
  keeps (only_in n) (init_places_loop X ps pos rows).
Proof.
  revert pos rows. induction ps as [|p ps IH]; intros pos rows; [apply keeps_ret|].
  simpl. case_decide; [apply IH|].
  apply keeps_bind; [destruct (place_exit p); [apply keeps_ret | apply keeps_raise]|].
  intros e. destruct (decide (e = "AntQueen"));
    (apply keeps_bind;
     [apply (keeps_preserves images); [apply only_in_images | done]|]; intros _;
     apply keeps_bind;
     [apply (keeps_preserves images); [apply only_in_images | done]|]; intros _;
     apply keeps_bind;
     [apply (keeps_preserves images); [apply only_in_images | done]|]; intros _;
     apply keeps_bind; [apply keeps_only_in_insert_empty|]; intros _; apply IH).
Qed.

Lemma draw_insect_only_in i n ro behind : keeps (only_in n) (_draw_insect X i n ro behind).
Proof.
  intros g Hg. destruct (_draw_insect X i n ro behind g) as [r g'] eqn:E. simpl.
  apply draw_insect_outcome in E as [[Him _]|(h & _ & _ & Him)];
    intros n' i'; rewrite Him; [apply Hg|].
  rewrite tracked_store. intros [(-> & _)|Hi]; [done | exact (Hg _ _ Hi)].
Qed.

Lemma init_places_only_hive c g :
  only_in (place_name (hive c)) (_init_places X c g).2.
Proof.
  unfold _init_places. unfold bind at 1, modify at 1. unfold bind at 1, modify at 1.
  match goal with |- only_in _ (?m ?g0).2 =>
    assert (only_in (place_name (hive c)) g0) as Hg0; [|revert Hg0; generalize g0] end.
  { intros n' i. unfold tracked. simpl.
    destruct (decide (n' = "AntQueen")) as [->|].
    - rewrite lookup_singleton_eq, lookup_empty, bool_decide_eq_true. by intros [? ?].
    - by rewrite lookup_singleton_ne. }
  apply keeps_bind; [apply init_places_loop_only_in|]. intros pos.
  apply keeps_bind; [apply keeps_only_in_insert_empty|]. intros _.
  apply keeps_bind; [apply (keeps_preserves images); [apply only_in_images | done]|].
  intros _. apply keeps_for_each. intros b. apply draw_insect_only_in.
Qed.

Lemma only_in_tracked_once n g : only_in n g → tracked_once (images g).
Proof. intros H i n1 n2 H1 H2. by rewrite (H _ _ H1), (H _ _ H2). Qed.

Lemma update_control_panel_images c : preserves images (_update_control_panel c).
Proof. unfold _update_control_panel, itemconfigure, edit_text. preserves_tac. Qed.

Lemma on_click_panel_images name c frame :
  preserves images (on_click_panel name c frame).
Proof. unfold on_click_panel. preserves_tac. Qed.

Lemma retire_tracked_once p i g :
  tracked_once (images g) → tracked_once (images (retire p i g).2).
Proof.
  intros Ho. destruct (retire p i g) as [r g'] eqn:E. simpl.
  apply retire_outcome in E as [(_ & -> & _)|[[-> _]|(_ & _ & -> & _)]]; [done..|].
  intros i' n1 n2. rewrite !tracked_pop. intros [? _] [? _]. eauto.
Qed.

Lemma on_click_place_tracked_once name c0 frame c g :
  tracked_once (images g) → ants_at_home c (images g) →
  (ant_type_selected g = Some "Remover" → (remove_ant X name c0).2 = c) →
  (∀ t, ant_type_selected g = Some t → t ≠ "Remover" →
        (deploy_ant X name t c0).2 = c) →
  tracked_once (images (on_click_place X name c0 frame g).2).
Proof.
  intros Ho Hh Hrem Hdep.
  set (I := λ g : GUI, tracked_once (images g) ∧ ants_at_home c (images g)).
  assert (∀ g g', images g' = images g → I g → I g') as HI.
  { unfold I. by intros ? ? ->. }
  assert (keeps I (_update_places X c)) as Hpass.
  { intros g0 [? ?]. by apply update_places_tracked_once. }
  unfold on_click_place, bind at 1, gets at 1.
  remember (ant_type_selected g) as sel eqn:Hsel.
  match goal with |- tracked_once (images (?m g).2) => cut (keeps I m) end.
  { intros Hk. by apply Hk. }
  apply keeps_bind; [destruct (place_named c0 name); [apply keeps_ret | apply keeps_raise]|].
  intros existing. case_decide as Hr.
  - destruct existing; [|apply keeps_ret].
    apply keeps_bind; [by apply (keeps_preserves images)|]. intros _.
    specialize (Hrem Hr). destruct (remove_ant X name c0) as [r c'] eqn:E.
    simpl in Hrem. subst c'.
    apply keeps_bind; [destruct r; [apply keeps_ret | apply keeps_raise]|]. intros _.
    apply keeps_bind; [done|]. intros _. apply keeps_ret.
  - destruct sel as [t|]; [|apply keeps_ret].
    assert (t ≠ "Remover") as Ht by congruence.
    specialize (Hdep t eq_refl Ht). destruct (deploy_ant X name t c0) as [r c'] eqn:E.
    simpl in Hdep. subst c'.
    apply keeps_bind; [|intros _; apply keeps_ret].
    apply keeps_try_except; [|intros e; by apply (keeps_preserves images)].
    apply keeps_bind; [by apply (keeps_preserves images)|]. intros _.
    apply keeps_bind; [destruct r; [apply keeps_ret | apply keeps_raise]|]. by intros _.
Qed.

(** C2.  No insect ever has an image in two containers: the mapping built
    by [_init_places] has none, and a pass of [_update_places] (complete
    or cut short by an exception), a click on the control panel, a click
    on a place, the move of one bee and the retirement of one insect all
    keep it so, as long as the snapshot the model reports has every ant at
    one place, and no ant at a place while the tracker has its image in
    another container. *)
Theorem tracker_never_duplicates c g :
  tracked_once (images g) → ants_at_home c (images g) →
  (∀ g0, tracked_once (images (_init_places X c g0).2)) ∧
  tracked_once (images (_update_places X c g).2) ∧
  (∀ name frame, tracked_once (images (on_click_panel name c frame g).2)) ∧
  (∀ name frame c0,
     (ant_type_selected g = Some "Remover" → (remove_ant X name c0).2 = c) →
     (∀ t, ant_type_selected g = Some t → t ≠ "Remover" →
           (deploy_ant X name t c0).2 = c) →
     tracked_once (images (on_click_place X name c0 frame g).2)) ∧
  (∀ p b, shown c p → b ∈ place_bees p →
     tracked_once (images (move_bee X c p b g).2)) ∧
  (∀ p i, tracked_once (images (retire p i g).2)).
Proof.
  intros Ho Hh. split_and!.
  - intros g0. eapply only_in_tracked_once, init_places_only_hive.
  - by apply update_places_tracked_once.
  - intros name frame. by rewrite on_click_panel_images.
  - intros name frame c0 ? ?. by eapply on_click_place_tracked_once.
  - intros p b Hp Hb. destruct (move_bee X c p b g) as [r g'] eqn:E. simpl.
    apply move_bee_outcome in E as [Hev _]; [|done].
    by apply (evolves_tracked_once c p (images g)).
  - intros p i. by apply retire_tracked_once.
Qed.

(** *** Reasoning along the list of places *)

Lemma same_name_same_place (l : list Place) p q :
  NoDup (place_name <$> l) → p ∈ l → q ∈ l → place_name p = place_name q → p = q.
Proof.
  intros Hnd [i Hi]%list_elem_of_lookup [j Hj]%list_elem_of_lookup Heq.
  assert (i = j) as ->; [|congruence].
  eapply (NoDup_lookup _ i j (place_name p)); [done | |].
  - by rewrite list_lookup_fmap, Hi.
  - by rewrite list_lookup_fmap, Hj, Heq.
Qed.


Lemma evolves_settled c p q im im' :
  rtc (step c p) im im' → place_name p ≠ place_name q →
  (∀ b b', b ∈ place_bees p → b' ∈ place_bees q → bee_key b ≠ bee_key b') →
  settled_at im q → settled_at im' q.
Proof.
  intros Hr Hn Hb. induction Hr as [|im1 im2 im3 Hs _ IH]; [done|].
  intros ?. by apply IH, (step_settled _ _ _ _ _ Hs).
Qed.

Lemma update_places_settled c g :
  settled c (images g) → _update_places X c g = (Ok tt, g).
Proof.
  intros Hs. apply for_each_skip. intros p Hp.
  destruct (decide (place_name p = "Hive")); [by apply update_place_hive|].
  apply update_place_settled; [done|]. by apply Hs.
Qed.

Lemma update_place_settles c p g g' :
  shown c p → tracked_once (images g) → ants_at_home c (images g) →
  update_place X c p g = (Ok tt, g') → settled_at (images g') p.
Proof.
  intros Hp Ho Hh (Hev & Hok & Hret & _)%(update_place_outcome X c); [|apply Hp].
  destruct (Hok eq_refl) as (? & ? & ?). split_and!; [done..|].
  apply Hret; [done|]. intros g1 Hev1.
  by apply (evolves_tracked_once c p (images g)).
Qed.

Lemma update_places_settles c g g' :
  NoDup (place_name <$> places c) →
  tracked_once (images g) → ants_at_home c (images g) → bees_at_one_place c →
  _update_places X c g = (Ok tt, g') → settled c (images g').
Proof.
  intros Hnd Ho Hh Hbees Hrun.
  set (I := λ g : GUI, tracked_once (images g) ∧ ants_at_home c (images g)).
  set (Q := λ (p : Place) (g : GUI), shown c p → settled_at (images g) p).
  assert (∀ p g g', p ∈ places c → I g → update_place X c p g = (Ok tt, g') →
                    I g' ∧ Q p g') as Hb.
  { intros p g0 g1 Hp [Ho0 Hh0] Hp_run.
    destruct (decide (place_name p = "Hive")) as [Hhive|Hhive].
    - rewrite update_place_hive in Hp_run by done. simplify_eq.
      split; [done|]. by intros [_ ?].
    - split.
      + apply (update_place_outcome X c) in Hp_run as [Hev _]; [|done].
        by apply (evolves_tracked_once c p (images g0)).
      + intros ?. by eapply update_place_settles. }
  assert (∀ p q g g', q ∈ places c → I g → Q p g →
                      update_place X c q g = (Ok tt, g') → Q p g') as Hq.
  { intros p q g0 g1 Hq_in HI HQ Hq_run Hp.
    destruct (decide (place_name q = "Hive")) as [Hhive|Hhive].
    { rewrite update_place_hive in Hq_run by done. simplify_eq. by apply HQ. }
    destruct (decide (place_name q = place_name p)) as [Hsame|Hdiff].
    { assert (q = p) as -> by (eapply same_name_same_place; [done..| apply Hp |done]).
      by apply (Hb p g0 g1). }
    apply (update_place_outcome X c) in Hq_run as [Hev _]; [|done].
    eapply evolves_settled; [exact Hev | done | | by apply HQ].
    intros b b' ? ? Hk. apply Hdiff. by eapply (Hbees q p b b'). }
  assert (I g) as HI by done.
  destruct (for_each_ok I Q (places c) (update_place X c) Hb Hq g g' HI Hrun) as [_ HQ].
  intros p Hp. apply HQ; [apply Hp | done].
Qed.

(** C4.  A second pass over the same snapshot, started from the state the
    first pass returned, changes nothing: it returns that very state, so
    no image is drawn, no shape is slid, no entry of the tracker is added,
    moved or retired.  The snapshot names every place once, reports every
    ant and every bee at one place only, and the tracker it is first
    reconciled with has no duplicate and no image of a reported ant in
    another container. *)
Theorem reconciler_idempotent c g g1 :
  NoDup (place_name <$> places c) →
  bees_at_one_place c →
  tracked_once (images g) → ants_at_home c (images g) →
  _update_places X c g = (Ok tt, g1) →
  _update_places X c g1 = (Ok tt, g1).
Proof.
  intros Hnd Hbees Ho Hh Hrun. apply update_places_settled.
  by eapply update_places_settles.
Qed.













End Passes.

(** ** Arrivals, registration, clicks *)

Section Callbacks.
Variable X : Externals.


(** C9 (as amended).  [_draw_insect] has no check of its own: for an
    insect that already has an image in the container it draws one more
    image and stores the new handle over the old one, which stays on the
    canvas.  The guard is at the call sites in [_update_places]: where the
    ant of a place and its passenger are tracked, nothing is drawn. *)
Theorem draw_insect_overwrites_handle i name behind g d h pt file :
  images g !! name = Some d →
  d !! insect_key i = Some h →
  place_points g !! name = Some pt →
  assoc (insect_name i) INSECT_FILES = Some file →
  _draw_insect X i name false behind g =
    (Ok tt,
     set_images (im_store name (insect_key i) (next_id (canvas g)) (images g))
       (set_canvas
          (mkCanvas (S (next_id (canvas g)))
             (ops (canvas g) ++
              [OpDrawImage (next_id (canvas g)) (shift_point X pt PLACE_PADDING)
                           file behind]))
          g)) ∧
  (∀ p, (∀ a, a ∈ occupants p →
              tracked (images g) (place_name p) (ant_key a) = true) →
        add_missing_ants X p g = (Ok tt, g)).
Proof.
  intros Hd Hi Hpt Hf. split; [|intros p; apply add_missing_ants_settled].
  unfold _draw_insect, bind at 1. rewrite Hf. unfold ret at 1.
  unfold bind at 1, point_of. rewrite Hpt.
  unfold bind at 1, ret at 1. unfold bind at 1, draw_image, fresh_shape.
  rewrite store_image_run. simpl. by rewrite Hd.
Qed.

Lemma interpret_click_loop_filter rects pos colony g :
  interpret_click_loop X rects pos colony g =
  run_callbacks X (List.filter (contains pos) rects) colony g.
Proof.
  revert colony g. induction rects as [|r rects IH]; intros colony g; [done|].
  simpl. destruct (contains pos r); simpl.
  - unfold bind. destruct (on_click X (rect_on_click r) colony (rect_frame r) g)
      as [[colony'|e] g']; [apply IH | done].
  - unfold bind at 1, ret at 1. apply IH.
Qed.

Lemma filter_singleton_find {A} (f : A → bool) l x :
  List.filter f l = [x] → List.find f l = Some x.
Proof.
  induction l as [|y l IH]; simpl; [done|].
  destruct (f y); [by intros [= ->] | done].
Qed.

(** C3 (as amended).  A click runs, in registration order, the callback
    of every rectangle that contains the point, the four edges included;
    no rectangle, no callback and no error; when one rectangle only
    contains the point it is the first match and its callback alone
    runs. *)
Theorem click_runs_every_match pos colony g :
  let hits := List.filter (contains pos) (_click_rectangles g) in
  _interpret_click X pos colony g = run_callbacks X hits colony g ∧
  (∀ r, contains pos r = true ↔
        (pos.1 >= (rect_corner r).1 ∧ pos.1 <= (rect_corner r).1 + rect_width r ∧
         pos.2 >= (rect_corner r).2 ∧ pos.2 <= (rect_corner r).2 + rect_height r)%Z) ∧
  (hits = [] → _interpret_click X pos colony g = (Ok colony, g)) ∧
  (∀ r, hits = [r] →
     hit_test pos (_click_rectangles g) = Some r ∧
     _interpret_click X pos colony g =
       on_click X (rect_on_click r) colony (rect_frame r) g).
Proof.
  intros hits.
  assert (_interpret_click X pos colony g = run_callbacks X hits colony g) as Hrun.
  { unfold _interpret_click, bind, gets. simpl. apply interpret_click_loop_filter. }
  split_and!.
  - done.
  - intros r. unfold contains. destruct pos as [x y], (rect_corner r) as [cx cy]. simpl.
    rewrite !andb_true_iff, !bool_decide_eq_true. tauto.
  - intros Hh. by rewrite Hrun, Hh.
  - intros r Hh. split; [by apply filter_singleton_find|].
    rewrite Hrun, Hh. simpl. unfold bind, ret.
    by destruct (on_click X (rect_on_click r) colony (rect_frame r) g) as [[?|?] ?].
Qed.

End Callbacks.

(** ** The loop of a turn *)

Lemma preserves_images_at {B} (f : GUI → B) n : preserves f (images_at n).
Proof. intros g. unfold images_at. by destruct (images g !! n). Qed.
Lemma preserves_point_of {B} (f : GUI → B) n : preserves f (point_of n).
Proof. intros g. unfold point_of. by destruct (place_points g !! n). Qed.

Ltac preserves_step :=
  first
    [ lazymatch goal with |- ∀ _, _ => intro end
    | match goal with H : ∀ _, preserves _ _ |- _ => apply H end
    | apply preserves_ret | apply preserves_raise | apply preserves_gets
    | apply preserves_images_at | apply preserves_point_of
    | apply preserves_bind | apply preserves_for_each | apply preserves_try_except
    | assumption
    | match goal with
      | |- preserves _ (match ?x with _ => _ end) => destruct x
      | |- preserves _ (let '(_, _) := ?x in _) => destruct x
      | |- preserves _ (modify _) => by intros ?
      | |- preserves _ (fresh_shape _) => by intros ?
      | |- preserves _ (random_randint _ _ _) => by intros ?
      end ].

Section Turn.
Variable X : Externals.

Lemma preserves_wait_calls_update_places c :
  preserves wait_calls (_update_places X c).
Proof.
  unfold _update_places, update_place, add_missing_ants, move_bees, move_bee, arrive,
    remove_expired, retire, _draw_insect, image_of, pop_image, store_image,
    draw_image, slide_shape, emit.
  repeat preserves_step.
Qed.

Lemma preserves_wait_calls_update_control_panel c :
  preserves wait_calls (_update_control_panel c).
Proof.
  unfold _update_control_panel, itemconfigure, edit_text, emit.
  repeat preserves_step.
Qed.

Lemma preserves_wait_calls_on_click cb c frame :
  preserves wait_calls (on_click X cb c frame).
Proof.
  pose proof preserves_wait_calls_update_places.
  pose proof preserves_wait_calls_update_control_panel.
  destruct cb; unfold on_click, on_click_panel, on_click_place, print, from_result;
    repeat preserves_step.
Qed.

Lemma preserves_wait_calls_interpret_click pos c :
  preserves wait_calls (_interpret_click X pos c).
Proof.
  unfold _interpret_click. apply preserves_bind; [apply preserves_gets|].
  intros rects. revert c. induction rects as [|r rects IH]; intros c; simpl.
  - apply preserves_ret.
  - apply preserves_bind; [|apply IH].
    destruct (contains pos r); [apply preserves_wait_calls_on_click | apply preserves_ret].
Qed.

Lemma preserves_wait_calls_refresh c : preserves wait_calls (refresh X c).
Proof.
  pose proof preserves_wait_calls_update_places.
  pose proof preserves_wait_calls_update_control_panel.
  unfold refresh, edit_text, emit. repeat preserves_step.
Qed.

(** An iteration refreshes, waits and dispatches the click it got. *)
Lemma strategy_step_unfold c elapsed g :
  strategy_step X c elapsed g =
  match refresh X c g with
  | (Ok _, g1) =>
      let g2 := set_wait_calls (S (wait_calls g1))
                  (set_canvas
                     (mkCanvas (next_id (canvas g1))
                        (ops (canvas g1) ++
                         [OpWaitForClick (Some (STRATEGY_SECONDS - elapsed)%Q)])) g1) in
      let click := wait_for_click X (wait_calls g1) (Some (STRATEGY_SECONDS - elapsed)%Q) in
      match click.1 with
      | Some pos =>
          match _interpret_click X pos c g2 with
          | (Ok c', g3) => (Ok (c', (elapsed + click.2)%Q), g3)
          | (Raise e, g3) => (Raise e, g3)
          end
      | None => (Ok (c, (elapsed + click.2)%Q), g2)
      end
  | (Raise e, g1) => (Raise e, g1)
  end.
Proof.
  unfold strategy_step, refresh, bind.
  destruct (_update_control_panel c g) as [[[]|e] g0]; [|done].
  destruct (_update_places X c g0) as [[[]|e] g1]; [|done].
  simpl.
  destruct (wait_for_click X _ _) as [[pos|] el]; simpl; [|done].
  by destruct (_interpret_click X pos c _) as [[c'|e] g3].
Qed.

Lemma strategy_step_ok c elapsed g c' elapsed' g' :
  strategy_step X c elapsed g = (Ok (c', elapsed'), g') →
  let click := wait_for_click X (wait_calls g) (Some (STRATEGY_SECONDS - elapsed)%Q) in
  elapsed' = (elapsed + click.2)%Q ∧ wait_calls g' = S (wait_calls g).
Proof.
  rewrite strategy_step_unfold. pose proof (preserves_wait_calls_refresh c g) as Hw.
  destruct (refresh X c g) as [[[]|e] g1]; [|done]. simpl in Hw. rewrite Hw. simpl.
  destruct (wait_for_click X _ _) as [[pos|] el]; simpl.
  - match goal with |- context [_interpret_click X pos c ?g2] =>
      pose proof (preserves_wait_calls_interpret_click pos c g2) as Hw2;
      destruct (_interpret_click X pos c g2) as [[c2|e] g3] end; [|done].
    intros; simplify_eq. split; [done|]. simpl in Hw2. by rewrite Hw2.
  - intros; by simplify_eq.
Qed.

Lemma strategy_loop_done fuel c elapsed g :
  (STRATEGY_SECONDS <= elapsed)%Q →
  strategy_loop X fuel c elapsed g = Some (Ok (c, elapsed), g).
Proof.
  intros H. destruct fuel; simpl; destruct (Qlt_le_dec elapsed STRATEGY_SECONDS);
    try done; exfalso; lra.
Qed.

Lemma strategy_loop_step fuel c elapsed g :
  (elapsed < STRATEGY_SECONDS)%Q →
  strategy_loop X (S fuel) c elapsed g =
  match strategy_step X c elapsed g with
  | (Ok (c', elapsed'), g') => strategy_loop X fuel c' elapsed' g'
  | (Raise e, g') => Some (Raise e, g')
  end.
Proof.
  intros H. simpl. destruct (Qlt_le_dec elapsed STRATEGY_SECONDS); [done|].
  exfalso. lra.
Qed.

(** C7 (as amended).  When every bounded wait takes at most the time asked
    for and exactly that time on timeout, and some wait of the turn ends
    without a click, the loop of [strategy] ends; when it ends normally
    the elapsed time is at least [STRATEGY_SECONDS]; and an iteration
    hands the click its wait returned to [_interpret_click]. *)
Theorem turn_ends_after_budget c g N :
  wait_bounded X →
  (∀ r, (wait_for_click X (wait_calls g + N) (Some r)).1 = None) →
  (∃ fuel out, strategy_loop X fuel c 0 g = Some out ∧
     ∀ c' elapsed g', out = (Ok (c', elapsed), g') →
                      (STRATEGY_SECONDS <= elapsed)%Q) ∧
  (∀ fuel c0 elapsed0 g0 c' elapsed g',
     strategy_loop X fuel c0 elapsed0 g0 = Some (Ok (c', elapsed), g') →
     (STRATEGY_SECONDS <= elapsed)%Q) ∧
  (∀ c0 elapsed0 g0 g1 pos el,
     refresh X c0 g0 = (Ok tt, g1) →
     wait_for_click X (wait_calls g1) (Some (STRATEGY_SECONDS - elapsed0)%Q)
       = (Some pos, el) →
     ∃ g2, strategy_step X c0 elapsed0 g0 =
           (c' <- _interpret_click X pos c0 ;; ret (c', (elapsed0 + el)%Q)) g2).
Proof.
  intros Hwait Htimeout. split_and!.
  - revert Htimeout. generalize 0%Q as elapsed. revert c g.
    induction N as [|N IH]; intros c g elapsed Htimeout.
    + destruct (Qlt_le_dec elapsed STRATEGY_SECONDS) as [Hlt|Hge].
      2:{ exists 0%nat. eexists. rewrite strategy_loop_done by done. split; [done|].
          intros; by simplify_eq. }
      destruct (strategy_step X c elapsed g) as [[[c1 el1]|e] g1] eqn:E.
      2:{ exists 1%nat. eexists. rewrite strategy_loop_step, E by done.
          split; [done|]. intros; by simplify_eq. }
      apply strategy_step_ok in E as Hstep. destruct Hstep as [Hel Hw].
      rewrite Nat.add_0_r in Htimeout.
      destruct (Hwait (wait_calls g) (STRATEGY_SECONDS - elapsed)%Q) as [_ Hfull];
        [lra|]. specialize (Hfull (Htimeout _)).
      assert (STRATEGY_SECONDS <= el1)%Q as Hdone by (rewrite Hel, Hfull; lra).
      exists 1%nat. eexists. rewrite strategy_loop_step, E, strategy_loop_done by done.
      split; [done|]. intros; by simplify_eq.
    + destruct (Qlt_le_dec elapsed STRATEGY_SECONDS) as [Hlt|Hge].
      2:{ exists 0%nat. eexists. rewrite strategy_loop_done by done. split; [done|].
          intros; by simplify_eq. }
      destruct (strategy_step X c elapsed g) as [[[c1 el1]|e] g1] eqn:E.
      2:{ exists 1%nat. eexists. rewrite strategy_loop_step, E by done.
          split; [done|]. intros; by simplify_eq. }
      apply strategy_step_ok in E as Hstep. destruct Hstep as [Hel Hw].
      destruct (IH c1 g1 el1) as (fuel & out & Hloop & Hout).
      { intros r. rewrite Hw. by replace (S (wait_calls g) + N)%nat
          with (wait_calls g + S N)%nat by lia. }
      exists (S fuel), out. by rewrite strategy_loop_step, E.
  - clear. induction fuel as [|fuel IH]; intros c0 elapsed0 g0 c' elapsed g'; simpl;
      destruct (Qlt_le_dec elapsed0 STRATEGY_SECONDS); try done.
    + intros; by simplify_eq.
    + destruct (strategy_step X c0 elapsed0 g0) as [[[c1 el1]|e] g1]; [apply IH | done].
    + intros; by simplify_eq.
  - intros c0 elapsed0 g0 g1 pos el Href Hclick. eexists.
    rewrite strategy_step_unfold, Href. simpl. rewrite Hclick. simpl.
    unfold bind, ret. reflexivity.
Qed.
End Turn.

(** ** Cleaning up after an animation *)




Section Animations.
Variable X : Externals.

End Animations.

(** ** The theorems at work on small colonies *)

Import Examples.
Lemma gui_start_only_hive : only_in "Hive" gui_start.
Proof. apply (init_places_only_hive ext0 col_start gui0). Qed.
Ltac in_list H :=
  repeat (apply elem_of_cons in H as [->|H]); [..| by apply elem_of_nil in H].
Lemma gui_start_tracked_once : tracked_once (images gui_start).
Proof. apply (only_in_tracked_once "Hive"), gui_start_only_hive. Qed.
Lemma col_guard_at_home : ants_at_home col_guard (images gui_start).
Proof.
  intros p a [Hp Hn] Ha. unfold col_guard, colony_of in Hp. simpl in Hp.
  in_list Hp. 
  - done.
  - simpl in Ha. in_list Ha. split.
    + intros n Hn'. pose proof (gui_start_only_hive _ _ Hn') as ->. by vm_compute in Hn'.
    + intros q a' [Hq Hnq] Ha' _. simpl in Hq. in_list Hq; done.
Qed.
Lemma tracker_never_duplicates_witness :
  tracked_once (images (_update_places ext0 col_guard gui_start).2).
Proof.
  exact (proj1 (proj2 (tracker_never_duplicates ext0 col_guard gui_start
                         gui_start_tracked_once col_guard_at_home))).
Defined.




Lemma click_runs_every_match_witness :
  hit_test (7, 7)%Z (_click_rectangles gui_one_rect) = Some rect_first ∧
  _interpret_click ext0 (7, 7)%Z col_empty gui_one_rect =
    on_click ext0 (rect_on_click rect_first) col_empty (rect_frame rect_first) gui_one_rect.
Proof.
  exact (proj2 (proj2 (proj2
           (click_runs_every_match ext0 (7, 7)%Z col_empty gui_one_rect)))
           rect_first eq_refl).
Defined.

(** A point in two rectangles: both callbacks run, and the selection is
    the one of the second, not the one of the first match. *)
Lemma click_overlap_runs_both :
  hit_test (7, 7)%Z (_click_rectangles gui_overlap) = Some rect_first ∧
  ant_type_selected
    (on_click ext0 (rect_on_click rect_first) col_empty (rect_frame rect_first)
       gui_overlap).2 = Some "Thrower" ∧
  ant_type_selected (_interpret_click ext0 (7, 7)%Z col_empty gui_overlap).2
    = Some "Long" ∧
  _interpret_click ext0 (7, 7)%Z col_empty gui_overlap =
    run_callbacks ext0 [rect_first; rect_second] col_empty gui_overlap.
Proof. split_and!; reflexivity. Qed.

Lemma col_entered_no_ants : ants_at_home col_entered (images gui_start).
Proof.
  intros p a [Hp Hn] Ha. simpl in Hp. in_list Hp; simpl in Ha; by apply elem_of_nil in Ha.
Qed.

Lemma col_entered_bees : bees_at_one_place col_entered.
Proof.
  intros p q b b' [Hp _] [Hq _] Hb Hb' _. simpl in Hp, Hq.
  in_list Hp; simpl in Hb; try (by apply elem_of_nil in Hb);
    in_list Hq; simpl in Hb'; try (by apply elem_of_nil in Hb'); done.
Qed.

Lemma reconciler_idempotent_witness :
  _update_places ext0 col_entered gui_entered = (Ok tt, gui_entered).
Proof.
  apply (reconciler_idempotent ext0 col_entered gui_start gui_entered).
  - apply (bool_decide_unpack _). by vm_compute.
  - exact col_entered_bees.
  - exact gui_start_tracked_once.
  - exact col_entered_no_ants.
  - by vm_compute.
Defined.



Lemma ext0_wait_bounded : wait_bounded ext0.
Proof. intros n r Hr. simpl. split; [apply Qle_refl | reflexivity]. Qed.

Lemma turn_ends_after_budget_witness :
  ∃ fuel out, strategy_loop ext0 fuel col_entered 0 gui_start = Some out ∧
    ∀ c' elapsed g', out = (Ok (c', elapsed), g') → (STRATEGY_SECONDS <= elapsed)%Q.
Proof.
  exact (proj1 (turn_ends_after_budget ext0 col_entered gui_start 0
                  ext0_wait_bounded (λ r, eq_refl))).
Defined.

Lemma ext_clicks_wait_bounded : wait_bounded ext_clicks.
Proof.
  intros n r Hr. simpl. split; [by apply Qlt_le_weak | done].
Qed.

Lemma instant_click_step elapsed g :
  ant_type_frames g = [] → _click_rectangles g = [] →
  ∃ g', strategy_step ext_clicks col_empty elapsed g = (Ok (col_empty, (elapsed + 0)%Q), g') ∧
        ant_type_frames g' = [] ∧ _click_rectangles g' = [].
Proof.
  intros Hf Hr. eexists.
  unfold strategy_step, _update_control_panel, bind at 1, bind at 1, gets at 1.
  rewrite Hf. simpl. unfold _interpret_click, bind, gets, ret. simpl. rewrite Hr. simpl.
  split_and!; [reflexivity | done..].
Qed.

(** A user whose clicks take no time keeps the turn going for ever: every
    wait is within its bound, and no amount of fuel ends the loop. *)
Lemma turn_never_ends_with_instant_clicks :
  wait_bounded ext_clicks ∧
  ∀ fuel, strategy_loop ext_clicks fuel col_empty 0 gui0 = None.
Proof.
  split; [exact ext_clicks_wait_bounded|].
  assert (∀ fuel elapsed g, (elapsed < STRATEGY_SECONDS)%Q →
            ant_type_frames g = [] → _click_rectangles g = [] →
            strategy_loop ext_clicks fuel col_empty elapsed g = None) as H.
  { induction fuel as [|fuel IH]; intros elapsed g Hlt Hf Hr; simpl;
      destruct (Qlt_le_dec elapsed STRATEGY_SECONDS); try done; try (exfalso; lra).
    destruct (instant_click_step elapsed g Hf Hr) as (g' & -> & ? & ?).
    apply IH; [lra | done..]. }
  intros fuel. apply H; [reflexivity | done..].
Qed.


Lemma draw_insect_overwrites_handle_witness :
  handle (images (_draw_insect ext0 (of_bee bee1) "Hive" false 0 gui_start).2)
         "Hive" (BeeKey 1) = Some 6.
Proof.
  rewrite (proj1 (draw_insect_overwrites_handle ext0 (of_bee bee1) "Hive" 0 gui_start
                    {[BeeKey 1 := 5%nat]} 5 (294, 300)%Z "img/bee.gif"
                    ltac:(by vm_compute) ltac:(by vm_compute) ltac:(by vm_compute)
                    eq_refl)).
  by vm_compute.
Defined.

(** Registering the bee of the hive a second time is neither refused nor
    ignored: the call returns normally, a second image is drawn, and its
    handle replaces the first one, which is never cleared. *)
Lemma draw_insect_twice_draws_twice :
  let r := _draw_insect ext0 (of_bee bee1) "Hive" false 0 gui_start in
  handle (images gui_start) "Hive" (BeeKey 1) = Some 5 ∧
  r.1 = Ok tt ∧
  handle (images r.2) "Hive" (BeeKey 1) = Some 6 ∧
  ops (canvas r.2) =
    ops (canvas gui_start) ++ [OpDrawImage 6 (304, 310)%Z "img/bee.gif" 0] ∧
  r.2 ≠ gui_start.
Proof.
  split_and!; [by vm_compute..|]. intros H.
  assert (next_id (canvas (_draw_insect ext0 (of_bee bee1) "Hive" false 0 gui_start).2)
          = next_id (canvas gui_start)) as Hn by (by rewrite H).
  by vm_compute in Hn.
Qed.



(** * Further properties *)

(** ** The reconciler *)

Lemma valid_insects_inv p i :
  i ∈ valid_insects p →
  (∃ b, b ∈ place_bees p ∧ i = bee_key b) ∨ (∃ a, a ∈ occupants p ∧ i = ant_key a).
Proof.
  unfold valid_insects, occupants. intros [Hb|Ha]%elem_of_union.
  - apply elem_of_list_to_set, list_elem_of_fmap in Hb as (b & -> & Hb). left. eauto.
  - right. destruct (place_ant p) as [a|]; [|set_solver].
    destruct (passenger a) as [q|]; set_solver.
Qed.

Section More.
Variable X : Externals.

(** X1.  After a pass that ends normally the tracker of every place holds the
    insects of the snapshot, all of them and no other. *)
Theorem pass_converges c g g' p i :
  NoDup (place_name <$> places c) →
  bees_at_one_place c →
  tracked_once (images g) → ants_at_home c (images g) →
  _update_places X c g = (Ok tt, g') →
  shown c p → place_exit p ≠ Some (place_name p) →
  tracked (images g') (place_name p) i = true ↔ i ∈ valid_insects p.
Proof.
  intros Hnd Hbees Ho Hh Hrun Hp Hexit.
  destruct (update_places_settles X c g g' Hnd Ho Hh Hbees Hrun p Hp)
    as (_ & Hants & Hb & Hv).
  split.
  - intros Hi. by destruct (Hv i Hi).
  - intros [(b & ? & ->)|(a & ? & ->)]%valid_insects_inv; eauto.
Qed.

(** X2.  An insect that has left the snapshot and is not tracked at the exit:
    its image is popped and slid below the play area; one that is tracked
    at the exit is left alone. *)
Theorem retire_slides_to_crypt p i g h (pt : point) :
  handle (images g) (place_name p) i = Some h →
  place_points g !! place_name p = Some pt →
  ((∀ e, place_exit p = Some e →
         known (images g) e ∧ tracked (images g) e i = false) →
   retire p i g =
     (Ok tt,
      set_canvas
        (mkCanvas (next_id (canvas g))
           (ops (canvas g) ++ [OpSlideShape h (pt.1, CRYPT) STRATEGY_SECONDS]))
        (set_images (im_pop (place_name p) i (images g)) g))) ∧
  (∀ e, place_exit p = Some e → tracked (images g) e i = true →
        retire p i g = (Ok tt, g)).
Proof.
  intros Hh Hpt. unfold handle in Hh.
  destruct (images g !! place_name p) as [d|] eqn:E; [|done]. simpl in Hh.
  split.
  - intros Hexp. unfold retire, bind at 1.
    assert (∀ g0 : GUI, g0 = g →
      (image <- pop_image (place_name p) i ;; pt <- point_of (place_name p) ;;
       slide_shape image (pt.1, CRYPT) STRATEGY_SECONDS) g0 =
      (Ok tt,
       set_canvas
         (mkCanvas (next_id (canvas g))
            (ops (canvas g) ++ [OpSlideShape h (pt.1, CRYPT) STRATEGY_SECONDS]))
         (set_images (im_pop (place_name p) i (images g)) g))) as Hpop.
    { intros g0 ->. unfold bind at 1. rewrite pop_image_run, E, Hh.
      unfold bind, point_of. simpl. by rewrite Hpt. }
    destruct (place_exit p) as [e|] eqn:Ee.
    + destruct (Hexp e eq_refl) as [[de Hde] Ht].
      unfold bind at 1, images_at. rewrite Hde. unfold ret at 1.
      unfold tracked in Ht. rewrite Hde in Ht. rewrite Ht. simpl. by apply Hpop.
    + unfold ret at 1. by apply Hpop.
  - intros e He Ht. unfold retire. rewrite He. unfold bind, images_at.
    unfold tracked in Ht. destruct (images g !! e) as [de|]; [|done].
    unfold ret. by rewrite Ht.
Qed.
End More.

Section Drawing.
Variable X : Externals.

Lemma draw_insect_eq i name ro behind g :
  _draw_insect X i name ro behind g =
  match assoc (insect_name i) INSECT_FILES with
  | None => (Raise (KeyError (key_str (insect_name i))), g)
  | Some file =>
      match place_points g !! name with
      | None => (Raise (KeyError (key_str name)), g)
      | Some pt =>
          let pos := if ro
                     then shift_point X (shift_point X pt PLACE_PADDING)
                            (randint X (rand_calls g) (-10) 10,
                             randint X (S (rand_calls g)) (-50) 50)
                     else shift_point X pt PLACE_PADDING in
          let g1 := if ro then set_rand_calls (S (S (rand_calls g))) g else g in
          let drawn :=
            set_canvas
              (mkCanvas (S (next_id (canvas g)))
                 (ops (canvas g) ++
                  [OpDrawImage (next_id (canvas g)) pos file behind])) g1 in
          if decide (known (images g) name)
          then (Ok tt,
                set_images (im_store name (insect_key i) (next_id (canvas g)) (images g))
                           drawn)
          else (Raise (KeyError (key_str name)), drawn)
      end
  end.
Proof.
  unfold _draw_insect, bind at 1.
  destruct (assoc (insect_name i) INSECT_FILES) as [file|]; [|done].
  unfold ret at 1, bind at 1, point_of.
  destruct (place_points g !! name) as [pt|]; [|done].
  unfold known.
  destruct ro; unfold bind, random_randint, ret, draw_image, fresh_shape; simpl;
    rewrite store_image_run; simpl; destruct (images g !! name) as [d|] eqn:E.
  - rewrite decide_True by eauto. done.
  - rewrite decide_False; [done|]. by intros [? ?].
  - rewrite decide_True by eauto. done.
  - rewrite decide_False; [done|]. by intros [? ?].
Qed.

(** X3.  How [_draw_insect] fails.  It returns when the name of the insect has
    an image file, the place has a point and the tracker has a container
    for the place.  Without the container, the image is drawn before the
    [KeyError] is raised: it stays on the canvas, tracked by nothing. *)
Theorem draw_insect_failure_modes i name ro behind g :
  ((_draw_insect X i name ro behind g).1 = Ok tt ↔
   is_Some (assoc (insect_name i) INSECT_FILES) ∧ is_Some (place_points g !! name) ∧
   known (images g) name) ∧
  (assoc (insect_name i) INSECT_FILES = None ∨ place_points g !! name = None →
   ∃ k, _draw_insect X i name ro behind g = (Raise (KeyError (key_str k)), g)) ∧
  (∀ file, assoc (insect_name i) INSECT_FILES = Some file →
           is_Some (place_points g !! name) → ¬ known (images g) name →
           ∃ pos g',
             _draw_insect X i name ro behind g = (Raise (KeyError (key_str name)), g') ∧
             ops (canvas g') =
               ops (canvas g) ++ [OpDrawImage (next_id (canvas g)) pos file behind] ∧
             images g' = images g).
Proof.
  rewrite draw_insect_eq.
  destruct (assoc (insect_name i) INSECT_FILES) as [file|] eqn:Ef.
  2:{ split_and!.
      - split; [done | by intros [[? ?] _]].
      - intros _. by eexists.
      - done. }
  destruct (place_points g !! name) as [pt|] eqn:Ep.
  2:{ split_and!.
      - split; [done | by intros (_ & [? ?] & _)].
      - intros _. by eexists.
      - by intros ? _ [? ?]. }
  cbv zeta. destruct (decide (known (images g) name)) as [Hk|Hk]; simpl.
  - split_and!; [split; [by eauto | done] | by intros [?|?] | done].
  - split_and!.
    + split; [done | by intros (_ & _ & ?)].
    + by intros [?|?].
    + intros f [= <-] _ _. destruct ro; eexists _, _; (split; [reflexivity|]); done.
Qed.

(** X4.  A passenger that is not tracked yet, in a carrier that is: its image
    is drawn behind the image of the carrier, and nothing else happens. *)
Theorem passenger_drawn_behind_carrier p a q g hc (pt : point) file :
  place_ant p = Some a → passenger a = Some q →
  tracked (images g) (place_name p) (ant_key q) = false →
  handle (images g) (place_name p) (ant_key a) = Some hc →
  place_points g !! place_name p = Some pt →
  assoc (ant_name q) INSECT_FILES = Some file →
  add_missing_ants X p g =
    (Ok tt,
     set_images
       (im_store (place_name p) (ant_key q) (next_id (canvas g)) (images g))
       (set_canvas
          (mkCanvas (S (next_id (canvas g)))
             (ops (canvas g) ++
              [OpDrawImage (next_id (canvas g)) (shift_point X pt PLACE_PADDING)
                           file hc])) g)).
Proof.
  intros Ha Hq Htq Hha Hpt Hf.
  assert (known (images g) (place_name p)) as Hk.
  { apply (tracked_known _ _ (ant_key a)), tracked_true. by rewrite Hha. }
  unfold add_missing_ants. rewrite Ha, Hq.
  unfold bind at 1. unfold bind at 1, gets at 1. simpl. rewrite Htq.
  unfold bind at 1, image_of, bind at 1, images_at.
  unfold handle in Hha. destruct (images g !! place_name p) as [d|] eqn:E; [|done].
  simpl in Hha. rewrite Hha. unfold ret at 1.
  rewrite draw_insect_eq. cbn [insect_name insect_key of_ant].
  rewrite Hf, Hpt, decide_True by done.
  unfold bind, gets. cbn [images set_images set_canvas].
  assert (tracked (im_store (place_name p) (ant_key q) (next_id (canvas g)) (images g))
                  (place_name p) (ant_key a) = true) as ->; [|done].
  rewrite tracked_store. right. rewrite tracked_true. unfold handle. rewrite E. simpl.
  by rewrite Hha.
Qed.

(** X5.  A carrier and its passenger that are both new to the tracker: the
    image of the carrier is looked up before the carrier is drawn, the
    pass stops there with [KeyError] and has changed nothing at this
    place. *)
Theorem new_carrier_with_passenger_fails c p a q g :
  place_name p ≠ "Hive" →
  place_ant p = Some a → passenger a = Some q →
  known (images g) (place_name p) →
  tracked (images g) (place_name p) (ant_key q) = false →
  tracked (images g) (place_name p) (ant_key a) = false →
  update_place X c p g = (Raise (KeyError (key_insect (ant_key a))), g).
Proof.
  intros Hn Ha Hq [d E] Htq Hta. unfold update_place. rewrite decide_False by done.
  unfold bind at 1, images_at at 1. rewrite E.
  unfold bind at 1, add_missing_ants. rewrite Ha, Hq.
  unfold bind at 1. unfold bind at 1, gets at 1. simpl. rewrite Htq.
  unfold bind at 1, image_of, bind at 1, images_at. rewrite E.
  apply tracked_false in Hta. unfold handle in Hta. rewrite E in Hta. simpl in Hta.
  by rewrite Hta.
Qed.

(** X6.  A bee reported at a place, tracked neither there nor at its source
    (it skipped a place, or went backwards): the move fails with
    [KeyError] on the bee and the view is unchanged. *)
Theorem arrival_without_image_fails c p b g :
  tracked (images g) (place_name p) (bee_key b) = false →
  known (images g) (place_name (source_of c p)) →
  tracked (images g) (place_name (source_of c p)) (bee_key b) = false →
  move_bee X c p b g = (Raise (KeyError (key_insect (bee_key b))), g).
Proof.
  intros Ht [d E] Hs. unfold move_bee, bind at 1, gets at 1. simpl. rewrite Ht.
  unfold arrive, bind at 1. rewrite pop_image_run, E.
  apply tracked_false in Hs. unfold handle in Hs. rewrite E in Hs. simpl in Hs.
  by rewrite Hs.
Qed.
End Drawing.

(** ** What a pass raises, and what it leaves alone *)



Section Pass.
Variable X : Externals.



(** X8.  A pass neither adds a container to the tracker nor deletes one,
    however it ends. *)
Theorem pass_keeps_containers c g n :
  known (images (_update_places X c g).2) n ↔ known (images g) n.
Proof.
  set (R := λ g g' : GUI, ∀ n, known (images g') n ↔ known (images g) n).
  assert (Reflexive R) by (by intros ? ?).
  assert (Transitive R) by (intros g1 g2 g3 H1 H2 n'; etrans; [apply H2 | apply H1]).
  destruct (_update_places X c g) as [r g'] eqn:E. simpl. revert n.
  eapply (for_each_rel R (places c) (update_place X c)); [|exact E].
  intros p g0 r0 g1 Hp Hrun n.
  destruct (decide (place_name p = "Hive")) as [Hhive|Hhive].
  - rewrite update_place_hive in Hrun by done. by simplify_eq.
  - apply (update_place_outcome X c) in Hrun as [Hev _]; [|done].
    by apply (evolves_known c p).
Qed.



(** X10.  A removal that the model refuses ends the dispatch: the exception
    leaves [_interpret_click] after the command was printed, the pass is
    not run, and the rectangles that come later are not looked at, even
    those that contain the click. *)
Theorem failed_removal_aborts_dispatch pos c g before r after name p a e c' :
  _click_rectangles g = before ++ r :: after →
  Forall (λ r', contains pos r' = false) before →
  contains pos r = true → rect_on_click r = click_place name →
  ant_type_selected g = Some "Remover" →
  place_named c name = Some p → place_ant p = Some a →
  remove_ant X name c = (Raise e, c') →
  _interpret_click X pos c g =
    (Raise e,
     set_stdout (stdout g ++ [out_str ("colony.remove_ant('" +:+ name +:+ "')")]) g).
Proof.
  intros Hr Hb Hc Hcb Hsel Hp Ha Hrem. unfold _interpret_click, bind, gets. rewrite Hr.
  clear Hr. induction Hb as [|r' before Hr' _ IH]; simpl.
  - rewrite Hc, Hcb. unfold bind at 1. simpl.
    unfold on_click_place, bind at 1, gets at 1. rewrite Hsel.
    unfold bind at 1. rewrite Hp. unfold ret at 1. rewrite decide_True by done.
    rewrite Ha, Hrem. unfold bind at 1, print, modify.
    unfold bind at 1, from_result, raise. done.
  - rewrite Hr'. unfold bind at 1, ret at 1. exact IH.
Qed.
End Pass.

(** ** Setting up the play area and the control panel *)

Section Setup.
Variable X : Externals.

(** The names among [ps] that get a rectangle. *)
Lemma init_places_loop_run ps pos rows g :
  let names := List.filter (λ n, bool_decide (n ≠ "Hive")) (place_name <$> ps) in
  match init_places_loop X ps pos rows g with
  | (Ok _, g') =>
      Forall (λ p, place_name p ≠ "Hive" → is_Some (place_exit p)) ps ∧
      dom (images g') = dom (images g) ∪ list_to_set names ∧
      dom (place_points g') = dom (place_points g) ∪ list_to_set names ∧
      rect_on_click <$> _click_rectangles g' =
        (rect_on_click <$> _click_rectangles g) ++ (click_place <$> names) ∧
      (∀ n i, tracked (images g') n i = true → tracked (images g) n i = true)
  | (Raise e, g') =>
      e = AttributeError "name" ∧
      Exists (λ p, place_name p ≠ "Hive" ∧ place_exit p = None) ps
  end.
Proof.
  revert pos rows g. induction ps as [|p ps IH]; intros pos rows g; simpl.
  { unfold ret. split_and!; [done|set_solver..| by rewrite app_nil_r | done]. }
  case_decide as Hh.
  { rewrite bool_decide_eq_false_2 by (by intros ?).
    specialize (IH pos rows g).
    destruct (init_places_loop X ps pos rows g) as [[pos'|e] g'].
    - destruct IH as (? & ? & ? & ? & ?). split_and!; try done.
      constructor; [done|done].
    - destruct IH as [? ?]. split; [done|]. by right. }
  rewrite bool_decide_eq_true_2 by done.
  unfold bind at 1. destruct (place_exit p) as [ex|] eqn:Eex.
  2:{ unfold raise. split; [done|]. left. done. }
  unfold ret at 1.
  destruct (decide (ex = "AntQueen"));
    unfold bind at 1, add_click_rect, bind at 1, draw_rectangle, fresh_shape;
    unfold bind at 1, modify at 1; unfold ret at 1;
    unfold bind at 1, draw_image, fresh_shape;
    unfold bind at 1, modify at 1; unfold bind at 1, modify at 1;
    (match goal with |- context [init_places_loop X ps ?a ?b ?g1] =>
       specialize (IH a b g1); destruct (init_places_loop X ps a b g1) as [[pos'|e'] g']
     end;
     [ destruct IH as (Hex & Him & Hpt & Hrc & Hfr); simpl in Him, Hpt, Hrc, Hfr;
       split_and!;
       [ constructor; [by eauto | done]
       | rewrite Him, dom_insert_L; set_solver
       | rewrite Hpt, dom_insert_L; set_solver
       | rewrite Hrc, fmap_app; simpl; by rewrite <- app_assoc
       | intros n0 i0 Hi%Hfr; by apply tracked_insert_empty in Hi ]
     | destruct IH as [? ?]; split; [done | by right] ]).
Qed.

Lemma draw_insect_run i n ro behind g :
  match assoc (insect_name i) INSECT_FILES with
  | None => _draw_insect X i n ro behind g = (Raise (KeyError (key_str (insect_name i))), g)
  | Some _ =>
      is_Some (place_points g !! n) → known (images g) n →
      ∃ h g', _draw_insect X i n ro behind g = (Ok tt, g') ∧
              images g' = im_store n (insect_key i) h (images g) ∧
              layout g' = layout g
  end.
Proof.
  unfold _draw_insect, bind at 1.
  destruct (assoc (insect_name i) INSECT_FILES) as [file|]; [|done].
  intros [pt Hpt] [d Hd]. unfold ret at 1, bind at 1, point_of. rewrite Hpt.
  destruct ro; unfold bind, random_randint, ret, draw_image, fresh_shape; simpl;
    rewrite store_image_run; simpl; rewrite Hd; by eexists _, _.
Qed.

Lemma draw_hive_bees hn bees g :
  is_Some (place_points g !! hn) → known (images g) hn →
  match for_each bees (λ bee, _draw_insect X (of_bee bee) hn true 0) g with
  | (Ok _, g') =>
      Forall (λ b, is_Some (assoc (bee_name b) INSECT_FILES)) bees ∧
      layout g' = layout g ∧
      (∀ n i, tracked (images g') n i = true ↔
              (n = hn ∧ i ∈ bee_key <$> bees) ∨ tracked (images g) n i = true) ∧
      (∀ n, known (images g') n ↔ known (images g) n)
  | (Raise e, g') =>
      ∃ b, b ∈ bees ∧ assoc (bee_name b) INSECT_FILES = None ∧
           e = KeyError (key_str (bee_name b))
  end.
Proof.
  revert g. induction bees as [|b bees IH]; intros g Hpt Hk.
  { simpl. unfold ret. split_and!; [done..| |done].
    intros n i. rewrite elem_of_nil. naive_solver. }
  rewrite for_each_cons. pose proof (draw_insect_run (of_bee b) hn true 0 g) as Hd.
  cbn [insect_name of_bee] in Hd.
  destruct (assoc (bee_name b) INSECT_FILES) as [file|] eqn:Ef.
  - destruct (Hd Hpt Hk) as (h & g1 & -> & Him & Hl).
    assert (place_points g1 = place_points g) as Hpp by (unfold layout in Hl; congruence).
    specialize (IH g1). rewrite Hpp, Him in IH.
    specialize (IH Hpt (proj2 (known_store _ _ _ _ _) Hk)).
    destruct (for_each bees _ g1) as [[[]|e] g'].
    + destruct IH as (Hall & Hl' & Ht & Hkn). split_and!.
      * constructor; [by rewrite Ef | done].
      * congruence.
      * intros n i. rewrite Ht, tracked_store, fmap_cons, elem_of_cons. simpl.
        naive_solver.
      * intros n. by rewrite Hkn, known_store.
    + destruct IH as (b' & ? & ? & ?). exists b'. split; [by right | done].
  - rewrite Hd. exists b. split; [left | done].
Qed.

Lemma init_places_run c g :
  match _init_places X c g with
  | (Ok _, g') =>
      (∀ p, shown c p → is_Some (place_exit p)) ∧
      (∀ b, b ∈ place_bees (hive c) → is_Some (assoc (bee_name b) INSECT_FILES)) ∧
      dom (images g') = {["AntQueen"; place_name (hive c)]} ∪ list_to_set (shown_names c) ∧
      dom (place_points g') = {[place_name (hive c)]} ∪ list_to_set (shown_names c) ∧
      rect_on_click <$> _click_rectangles g' =
        (rect_on_click <$> _click_rectangles g) ++ (click_place <$> shown_names c) ∧
      (∀ n i, tracked (images g') n i = true ↔
              n = place_name (hive c) ∧ i ∈ bee_key <$> place_bees (hive c))
  | (Raise e, g') =>
      (e = AttributeError "name" ∧ ∃ p, shown c p ∧ place_exit p = None) ∨
      ((∀ p, shown c p → is_Some (place_exit p)) ∧
       ∃ b, b ∈ place_bees (hive c) ∧ assoc (bee_name b) INSECT_FILES = None ∧
            e = KeyError (key_str (bee_name b)))
  end.
Proof.
  unfold _init_places. unfold bind at 1, modify at 1. unfold bind at 1, modify at 1.
  unfold bind at 1.
  match goal with |- context [init_places_loop X ?ps ?a ?b ?g1] =>
    pose proof (init_places_loop_run ps a b g1) as Hloop;
    destruct (init_places_loop X ps a b g1) as [[pos|e] g2] end; simpl in Hloop.
  2:{ destruct Hloop as [-> (p & Hp & Hn & He)%Exists_exists]. left. split; [done|].
      exists p. by split. }
  destruct Hloop as (Hex & Him & Hpt & Hrc & Hsh).
  unfold bind at 1, modify at 1. unfold bind at 1, modify at 1.
  match goal with |- context [for_each ?l ?body ?g3] =>
    pose proof (draw_hive_bees (place_name (hive c)) l g3) as Hbees;
    destruct (for_each l body g3) as [[[]|e] g'] end; simpl in Hbees.
  2:{ right. split.
      - intros p [Hp Hn]. rewrite Forall_forall in Hex. by apply Hex.
      - apply Hbees.
        + rewrite lookup_insert_eq. eauto.
        + unfold known. rewrite lookup_insert_eq. eauto. }
  destruct Hbees as (Hall & Hl & Ht & Hk).
  { rewrite lookup_insert_eq. eauto. }
  { unfold known. rewrite lookup_insert_eq. eauto. }
  unfold layout in Hl. simpl in Hl. injection Hl as Hl1 Hl2 Hl3.
  assert (∀ n i, tracked (<[place_name (hive c) := ∅]> (images g2)) n i = false) as Hempty.
  { intros n i. apply not_true_iff_false. intros Hi%tracked_insert_empty%Hsh.
    revert Hi. unfold tracked. simpl.
    destruct (decide (n = "AntQueen")) as [->|]; [done|].
    by rewrite lookup_singleton_ne. }
  split_and!.
  - intros p [Hp Hn]. rewrite Forall_forall in Hex. by apply Hex.
  - by rewrite Forall_forall in Hall.
  - apply set_eq. intros n. rewrite elem_of_dom. fold (known (images g') n).
    rewrite Hk. unfold known. rewrite <- elem_of_dom, dom_insert_L, Him.
    simpl. rewrite dom_singleton_L. unfold shown_names. set_solver.
  - rewrite Hl3, dom_insert_L, Hpt. simpl. rewrite dom_empty_L. unfold shown_names. set_solver.
  - rewrite Hl1, Hrc. done.
  - intros n i. rewrite Ht, Hempty. naive_solver.
Qed.

(** X11.  When [_init_places] fails, and how: a place other than the Hive
    without an exit is an [AttributeError]; otherwise a bee of the hive
    whose name has no image file is a [KeyError]; otherwise it returns. *)
Theorem init_places_outcome c g :
  let exits := ∀ p, shown c p → is_Some (place_exit p) in
  let files := ∀ b, b ∈ place_bees (hive c) → is_Some (assoc (bee_name b) INSECT_FILES) in
  ((_init_places X c g).1 = Ok tt ↔ exits ∧ files) ∧
  (¬ exits → (_init_places X c g).1 = Raise (AttributeError "name")) ∧
  (exits → ¬ files →
   ∃ b, b ∈ place_bees (hive c) ∧
        (_init_places X c g).1 = Raise (KeyError (key_str (bee_name b)))).
Proof.
  intros exits files. pose proof (init_places_run c g) as H.
  destruct (_init_places X c g) as [[[]|e] g']; simpl.
  - destruct H as (He & Hf & _). split_and!; [done | done | done].
  - destruct H as [[-> (p & Hp & Hn)]|(He & b & Hb & Hf & ->)].
    + assert (¬ exits) as Hne.
      { intros He. destruct (He p Hp) as [? ?]. congruence. }
      split_and!; [split; [done | by intros [? ?]] | done | done].
    + assert (¬ files) as Hnf.
      { intros Hfs. destruct (Hfs b Hb) as [? ?]. congruence. }
      split_and!; [split; [done | by intros [? ?]] | done | by exists b].
Qed.

(** X12.  What [_init_places] registers when it returns: a container in the
    tracker for [AntQueen], the hive and every place with a rectangle; a
    point for the hive and every such place, none for [AntQueen]; one
    click rectangle for each such place, in the order of the places, whose
    callback carries the name of the place. *)
Theorem init_places_registers c g g' :
  _init_places X c g = (Ok tt, g') →
  dom (images g') = {["AntQueen"; place_name (hive c)]} ∪ list_to_set (shown_names c) ∧
  dom (place_points g') = {[place_name (hive c)]} ∪ list_to_set (shown_names c) ∧
  rect_on_click <$> _click_rectangles g' =
    (rect_on_click <$> _click_rectangles g) ++ (click_place <$> shown_names c).
Proof.
  intros E. pose proof (init_places_run c g) as H. rewrite E in H.
  by destruct H as (_ & _ & ? & ? & ? & _).
Qed.

(** X13.  After [_init_places] the tracker holds the bees of the hive, in the
    container of the hive, and nothing else: what an earlier session had
    tracked is forgotten. *)
Theorem init_tracks_hive_bees c g g' n i :
  _init_places X c g = (Ok tt, g') →
  tracked (images g') n i = true ↔
  n = place_name (hive c) ∧ i ∈ bee_key <$> place_bees (hive c).
Proof.
  intros E. pose proof (init_places_run c g) as H. rewrite E in H.
  by destruct H as (_ & _ & _ & _ & _ & ?).
Qed.

Hypothesis shift_adds : ∀ p d, shift_point X p d = (p.1 + d.1, p.2 + d.2)%Z.

Lemma init_panel_loop_run types pos g :
  ∃ rects,
    _click_rectangles (init_panel_loop X types pos g).2 = _click_rectangles g ++ rects ∧
    Forall (λ rc, (pos.1 <= (rect_corner rc).1)%Z ∧
                  rect_width rc = (ANT_IMAGE_WIDTH + 2 * PANEL_PADDING.1)%Z) rects ∧
    (∀ p, length (List.filter (contains p) rects) ≤ 1) ∧
    ((init_panel_loop X types pos g).1 = Ok tt →
     rect_on_click <$> rects = select_ant_type <$> types.*1).
Proof.
  revert pos g. induction types as [|[name cost] types IH]; intros pos g.
  { exists []. simpl. rewrite app_nil_r. split_and!; [done | done | intros; simpl; lia | done]. }
  cbn [init_panel_loop].
  unfold bind at 1, add_click_rect, bind at 1, draw_rectangle, fresh_shape.
  unfold bind at 1, modify at 1. unfold ret at 1. unfold bind at 1, modify at 1.
  unfold bind at 1.
  set (r0 := mkRect pos (ANT_IMAGE_WIDTH + 2 * PANEL_PADDING.1)
                    (ANT_IMAGE_HEIGHT + 6 + 2 * PANEL_PADDING.2) (next_id (canvas g))
                    (select_ant_type name)).
  destruct (assoc name INSECT_FILES) as [file|].
  2:{ exists [r0]. unfold raise. simpl. split_and!; [done | | | done].
      - constructor; [|done]. split; [unfold r0; simpl; lia | done].
      - intros p. destruct (contains p r0); simpl; lia. }
  unfold ret at 1. unfold bind at 1, draw_image, fresh_shape.
  unfold bind at 1, draw_text, fresh_shape.
  match goal with |- context [init_panel_loop X types ?a ?g1] =>
    destruct (IH a g1) as (rects & Hr & Hall & Hone & Hcb) end.
  exists (r0 :: rects). rewrite Hr. simpl. split_and!.
  - by rewrite <- app_assoc.
  - constructor; [split; [unfold r0; simpl; lia | done]|].
    eapply Forall_impl; [exact Hall|]. intros rc [Hc ?]. split; [|done].
    rewrite shift_adds in Hc. simpl in Hc. unfold ANT_IMAGE_WIDTH, PANEL_PADDING in Hc.
    simpl in Hc. lia.
  - intros p. destruct (contains p r0) eqn:Ec; [|apply Hone]. simpl.
    assert (List.filter (contains p) rects = []) as ->; [|simpl; lia].
    assert (Forall (λ rc, contains p rc = false) rects) as Hno.
    { eapply Forall_impl; [exact Hall|]. intros rc [Hc Hw]. rewrite shift_adds in Hc.
      unfold contains in Ec |- *. destruct p as [x y], pos as [px py].
      destruct (rect_corner rc) as [cx cy]. unfold r0 in Ec. simpl in Ec, Hc.
      apply andb_prop in Ec as [[[_ Hx%bool_decide_eq_true]%andb_prop _]%andb_prop _].
      rewrite (bool_decide_eq_false_2 (x >= cx)%Z); [done|].
      unfold ANT_IMAGE_WIDTH, PANEL_PADDING in *. simpl in *. lia. }
    clear -Hno. induction Hno as [|rc rects Hrc _ IH]; [done|]. simpl. by rewrite Hrc.
  - intros Hok. specialize (Hcb Hok). f_equal. exact Hcb.
Qed.

(** X14.  The frames of the control panel never overlap: whatever position is
    clicked, at most one of the rectangles that [_init_control_panel]
    registers contains it; when it returns there is one rectangle for each
    ant type, in order, whose callback selects that type. *)
Theorem panel_frames_never_overlap c g r g' :
  _init_control_panel X c g = (r, g') →
  ∃ rects,
    _click_rectangles g' = _click_rectangles g ++ rects ∧
    (r = Ok tt → rect_on_click <$> rects = select_ant_type <$> (ant_types c).*1) ∧
    ∀ pos, length (List.filter (contains pos) rects) ≤ 1.
Proof.
  unfold _init_control_panel, bind at 1, modify at 1. unfold bind at 1, modify at 1.
  intros E.
  match type of E with init_panel_loop X ?ts ?a ?g1 = _ =>
    destruct (init_panel_loop_run ts a g1) as (rects & Hr & _ & Hone & Hcb) end.
  rewrite E in Hr, Hcb. simpl in Hr, Hcb. exists rects. by split_and!.
Qed.
End Setup.

(** ** The callbacks and the turn *)

Section Clicks.
Variable X : Externals.

(** X15.  A click on a place with an ant type other than the remover selected
    never raises: what the model or the pass that follows raise is
    printed, and the callback returns the colony as the model left it. *)
Theorem deploy_click_never_raises name colony frame g ant_type p :
  ant_type_selected g = Some ant_type →
  ant_type ≠ "Remover" →
  place_named colony name = Some p →
  (on_click_place X name colony frame g).1 = Ok (deploy_ant X name ant_type colony).2.
Proof.
  intros Hsel Hne Hp. unfold on_click_place, bind at 1, gets at 1. rewrite Hsel.
  unfold bind at 1. rewrite Hp. unfold ret at 1.
  rewrite decide_False by congruence.
  destruct (deploy_ant X name ant_type colony) as [r colony'].
  unfold bind at 1, try_except.
  match goal with |- context [?m g] =>
    lazymatch m with bind (print _) _ => destruct (m g) as [[[]|e] g1] end end.
  - done.
  - unfold print, modify, ret. done.
Qed.

(** X16.  Clicks on a place that do nothing: no ant type is selected, or the
    remover is selected and the place has no ant; a click on a name that
    is not a place of the colony is a [KeyError]. *)
Theorem place_click_without_effect name colony frame g :
  (∀ p, place_named colony name = Some p → ant_type_selected g = None →
        on_click_place X name colony frame g = (Ok colony, g)) ∧
  (∀ p, place_named colony name = Some p → ant_type_selected g = Some "Remover" →
        place_ant p = None →
        on_click_place X name colony frame g = (Ok colony, g)) ∧
  (place_named colony name = None →
   on_click_place X name colony frame g = (Raise (KeyError (key_str name)), g)).
Proof.
  split_and!.
  - intros p Hp Hsel. unfold on_click_place, bind at 1, gets at 1. rewrite Hsel.
    unfold bind at 1. rewrite Hp. unfold ret at 1. by rewrite decide_False.
  - intros p Hp Hsel Hant. unfold on_click_place, bind at 1, gets at 1. rewrite Hsel.
    unfold bind at 1. rewrite Hp. unfold ret at 1. rewrite decide_True by done.
    by rewrite Hant.
  - intros Hp. unfold on_click_place, bind at 1, gets at 1.
    unfold bind at 1. by rewrite Hp.
Qed.

Lemma preserves_setup_update_places c : preserves setup (_update_places X c).
Proof.
  unfold _update_places, update_place, add_missing_ants, move_bees, move_bee, arrive,
    remove_expired, retire, _draw_insect, image_of, pop_image, store_image,
    draw_image, slide_shape, emit.
  repeat preserves_step.
Qed.

Lemma preserves_setup_update_control_panel c :
  preserves setup (_update_control_panel c).
Proof.
  unfold _update_control_panel, itemconfigure, edit_text, emit.
  repeat preserves_step.
Qed.

Lemma preserves_setup_on_click cb c frame : preserves setup (on_click X cb c frame).
Proof.
  pose proof preserves_setup_update_places.
  pose proof preserves_setup_update_control_panel.
  destruct cb; unfold on_click, on_click_panel, on_click_place, print, from_result;
    repeat preserves_step.
Qed.

Lemma preserves_setup_interpret_click_loop rects pos c :
  preserves setup (interpret_click_loop X rects pos c).
Proof.
  revert c. induction rects as [|r rects IH]; intros c; simpl.
  - apply preserves_ret.
  - apply preserves_bind; [|apply IH].
    destruct (contains pos r); [apply preserves_setup_on_click | apply preserves_ret].
Qed.

Lemma preserves_setup_strategy_step c elapsed :
  preserves setup (strategy_step X c elapsed).
Proof.
  pose proof preserves_setup_update_places.
  pose proof preserves_setup_update_control_panel.
  unfold strategy_step, edit_text, emit. repeat preserves_step.
  - by intros ?.
  - apply preserves_setup_interpret_click_loop.
Qed.

(** X17.  Once the graphics are initialized the layout is fixed: a call of
    [strategy], with its passes, waits and dispatched clicks, leaves the
    click rectangles, the frames of the control panel and the points of
    the places as they are, however it ends. *)
Theorem turn_keeps_layout fuel c g r g' :
  initialized g = true →
  strategy X fuel c g = Some (r, g') →
  _click_rectangles g' = _click_rectangles g ∧
  ant_type_frames g' = ant_type_frames g ∧
  place_points g' = place_points g.
Proof.
  intros Hinit. unfold strategy. rewrite Hinit. unfold ret.
  assert (∀ fuel c elapsed g r g',
            strategy_loop X fuel c elapsed g = Some (r, g') → setup g' = setup g) as H.
  { clear. induction fuel as [|fuel IH]; intros c elapsed g r g'; simpl;
      destruct (Qlt_le_dec elapsed STRATEGY_SECONDS); try done;
      try (intros; by simplify_eq).
    pose proof (preserves_setup_strategy_step c elapsed g) as Hstep.
    destruct (strategy_step X c elapsed g) as [[[c1 el1]|e] g1]; simpl in Hstep.
    - intros Hloop. rewrite <- Hstep. by eapply IH.
    - intros [= <- <-]. exact Hstep. }
  intros Hloop. apply H in Hloop. unfold setup, layout in Hloop. by simplify_eq.
Qed.

Lemma preserves_proj {A B C} (f : GUI → B) (h : B → C) (m : M A) :
  preserves f m → preserves (λ g, h (f g)) m.
Proof. intros H g. by rewrite H. Qed.

Lemma preserves_session_init_panel_loop types pos :
  preserves (λ g, (initialized g, ant_type_selected g, wait_calls g))
            (init_panel_loop X types pos).
Proof.
  revert pos. induction types as [|[name cost] types IH]; intros pos; simpl.
  - apply preserves_ret.
  - unfold add_click_rect, draw_rectangle, draw_image, draw_text.
    repeat preserves_step.
Qed.

Lemma preserves_session_init_places_loop ps pos rows :
  preserves (λ g, (initialized g, ant_type_selected g, wait_calls g))
            (init_places_loop X ps pos rows).
Proof.
  revert pos rows. induction ps as [|p ps IH]; intros pos rows; simpl.
  - apply preserves_ret.
  - case_decide; [apply IH|].
    apply preserves_bind; [destruct (place_exit p); repeat preserves_step|].
    intros ex. case_decide;
      unfold add_click_rect, draw_rectangle, draw_image; repeat preserves_step;
      apply IH.
Qed.

Lemma preserves_session_init_places c :
  preserves (λ g, (initialized g, ant_type_selected g, wait_calls g)) (_init_places X c).
Proof.
  unfold _init_places, _draw_insect, store_image, draw_image.
  repeat preserves_step. apply preserves_session_init_places_loop.
Qed.

Lemma initialize_marks_initialized c g :
  initialized (initialize_colony_graphics X c g).2 = true.
Proof.
  unfold initialize_colony_graphics, bind at 1, modify at 1.
  match goal with |- initialized (?m ?g1).2 = true =>
    assert (preserves initialized m) as Hm; [|by rewrite Hm] end.
  pose proof (λ c, preserves_proj _ (λ x, x.1.1) _ (preserves_session_init_places c)) as Hp.
  simpl in Hp.
  unfold _init_control_panel, draw_text, clear, emit.
  repeat preserves_step.
  all: try (by intros ?).
  apply (preserves_proj _ (λ x, x.1.1) _ (preserves_session_init_panel_loop _ _)).
Qed.

Lemma init_panel_loop_callbacks types pos g g' :
  init_panel_loop X types pos g = (Ok tt, g') →
  rect_on_click <$> _click_rectangles g' =
    (rect_on_click <$> _click_rectangles g) ++ (select_ant_type <$> types.*1).
Proof.
  revert pos g. induction types as [|[name cost] types IH]; intros pos g.
  { simpl. unfold ret. intros [= <-]. by rewrite app_nil_r. }
  cbn [init_panel_loop].
  unfold bind at 1, add_click_rect, bind at 1, draw_rectangle, fresh_shape.
  unfold bind at 1, modify at 1. unfold ret at 1. unfold bind at 1, modify at 1.
  unfold bind at 1.
  destruct (assoc name INSECT_FILES) as [file|]; [|done].
  unfold ret at 1. unfold bind at 1, draw_image, fresh_shape.
  unfold bind at 1, draw_text, fresh_shape.
  intros Hr%IH. simpl in Hr. rewrite Hr, fmap_app. simpl. by rewrite <- app_assoc.
Qed.

(** X18.  A session starts from scratch: when [initialize_colony_graphics]
    returns, the click rectangles are those of the ant types followed by
    those of the places, each with the callback of its name, whatever
    rectangles there were before; no ant type is selected; and the user
    has been waited for once. *)
Theorem initialization_registers_callbacks c g g' :
  initialize_colony_graphics X c g = (Ok tt, g') →
  rect_on_click <$> _click_rectangles g' =
    (select_ant_type <$> (ant_types c).*1) ++ (click_place <$> shown_names c) ∧
  ant_type_selected g' = None ∧
  wait_calls g' = S (wait_calls g).
Proof.
  unfold initialize_colony_graphics, bind at 1, modify at 1.
  unfold bind at 1, modify at 1. unfold bind at 1, draw_text at 1, fresh_shape.
  unfold bind at 1, modify at 1. unfold bind at 1, draw_text at 1, fresh_shape.
  unfold bind at 1, modify at 1. unfold bind at 1, modify at 1.
  unfold bind at 1, _init_control_panel, bind at 1, modify at 1.
  unfold bind at 1, modify at 1.
  match goal with |- context [init_panel_loop X ?ts ?a ?g1] =>
    pose proof (preserves_session_init_panel_loop ts a g1) as Hp1;
    destruct (init_panel_loop X ts a g1) as [[[]|e] g2] eqn:E1; [|done] end.
  apply init_panel_loop_callbacks in E1 as Hr1. simpl in Hr1, Hp1.
  injection Hp1 as _ Hs1 Hw1.
  unfold bind at 1. pose proof (preserves_session_init_places c g2) as Hp2.
  destruct (_init_places X c g2) as [[[]|e] g3] eqn:E2; [|done].
  pose proof (init_places_run X c g2) as Hrun. rewrite E2 in Hrun.
  destruct Hrun as (_ & _ & _ & _ & Hr2 & _).
  simpl in Hp2. injection Hp2 as _ Hs2 Hw2.
  unfold bind, draw_text, fresh_shape, canvas_wait_for_click, clear, emit, modify.
  intros [= <-]. simpl. split_and!.
  - by rewrite Hr2, Hr1.
  - congruence.
  - congruence.
Qed.

(** X19.  The flag [initialized] is set before anything else is done: after a
    call of [strategy], however it ended, the flag is set, so a failed
    initialization is not tried again by the next call. *)
Theorem strategy_marks_initialized fuel c g r g' :
  strategy X fuel c g = Some (r, g') → initialized g' = true.
Proof.
  assert (∀ fuel c elapsed g r g',
            strategy_loop X fuel c elapsed g = Some (r, g') →
            initialized g' = initialized g) as H.
  { clear. induction fuel as [|fuel IH]; intros c elapsed g r g'; simpl;
      destruct (Qlt_le_dec elapsed STRATEGY_SECONDS); try done;
      try (intros; by simplify_eq).
    pose proof (preserves_setup_strategy_step c elapsed g) as Hstep.
    destruct (strategy_step X c elapsed g) as [[[c1 el1]|e] g1]; simpl in Hstep;
      injection Hstep as Hstep _.
    - intros Hloop. rewrite <- Hstep. by eapply IH.
    - intros [= <- <-]. exact Hstep. }
  unfold strategy. destruct (initialized g) eqn:Ei.
  - unfold ret. intros Hloop%H. congruence.
  - pose proof (initialize_marks_initialized c g) as Hi.
    destruct (initialize_colony_graphics X c g) as [[[]|e] g1]; simpl in Hi.
    + intros Hloop%H. congruence.
    + intros [= <- <-]. exact Hi.
Qed.

(** X20.  When every wait respects its bound, a turn that ends normally has
    lasted [STRATEGY_SECONDS] exactly. *)
Theorem turn_lasts_exactly_budget fuel c g c' elapsed g' :
  wait_bounded X →
  strategy_loop X fuel c 0 g = Some (Ok (c', elapsed), g') →
  (elapsed == STRATEGY_SECONDS)%Q.
Proof.
  intros Hwait.
  assert (∀ fuel c el g, (el <= STRATEGY_SECONDS)%Q →
            strategy_loop X fuel c el g = Some (Ok (c', elapsed), g') →
            (elapsed == STRATEGY_SECONDS)%Q) as H.
  { clear fuel c g. induction fuel as [|fuel IH]; intros c el g Hle; simpl;
      destruct (Qlt_le_dec el STRATEGY_SECONDS) as [Hlt|Hge]; try done.
    - intros; simplify_eq. by apply Qle_antisym.
    - destruct (strategy_step X c el g) as [[[c1 el1]|e] g1] eqn:E; [|done].
      apply strategy_step_ok in E as [-> _]. apply IH.
      destruct (Hwait (wait_calls g) (STRATEGY_SECONDS - el)%Q) as [Hb _]; lra.
    - intros; simplify_eq. by apply Qle_antisym. }
  apply H. unfold STRATEGY_SECONDS. lra.
Qed.
End Clicks.

(** ** The control panel *)

Lemma panel_body_run c n f g :
  panel_body c (n, f) g =
  match assoc n (ant_types c) with
  | None => (Raise (KeyError (key_str n)), g)
  | Some cost =>
      (Ok tt,
       set_canvas
         (mkCanvas (next_id (canvas g))
            (ops (canvas g) ++
             (if decide (cost > food c)%Z then [OpItemConfigure f "Gray"]
              else if decide (Some n = ant_type_selected g)
                   then [OpEditText (ant_text g) ("Ant selected: " +:+ n);
                         OpItemConfigure f "Blue"]
                   else [OpItemConfigure f "White"]))) g)
  end.
Proof.
  unfold bind at 1. destruct (assoc n (ant_types c)) as [cost|]; [|done].
  unfold ret at 1, bind at 1, gets at 1. unfold bind at 1.
  destruct (decide (cost > food c)%Z); [done|].
  destruct (decide (Some n = ant_type_selected g)); [|done].
  unfold bind, gets, edit_text, itemconfigure, emit, modify, ret. simpl.
  by rewrite <- app_assoc.
Qed.

Lemma update_panel_loop_run c name cost frames g r g' :
  assoc name (ant_types c) = Some cost →
  ant_type_selected g = Some name →
  for_each frames (panel_body c) g = (r, g') →
  ant_type_selected g' = Some name ∧ ant_text g' = ant_text g ∧
  ∃ new, ops (canvas g') = ops (canvas g) ++ new ∧
    Forall (λ e, e = (ant_text g, "Ant selected: " +:+ name)) (edits new) ∧
    ((cost > food c)%Z → edits new = []) ∧
    ((cost <= food c)%Z → r = Ok tt → name ∈ frames.*1 → edits new ≠ []).
Proof.
  intros Hcost. revert g. induction frames as [|[n f] frames IH]; intros g Hsel E.
  { simpl in E. unfold ret in E. simplify_eq. split_and!; [done..|].
    exists []. rewrite app_nil_r. split_and!; try done.
    intros _ _ H. by apply elem_of_nil in H. }
  rewrite for_each_cons, panel_body_run in E.
  destruct (assoc n (ant_types c)) as [cn|] eqn:En.
  2:{ simplify_eq. split_and!; [done..|]. exists []. rewrite app_nil_r.
      split_and!; done. }
  apply IH in E as (Hs & Ht & new & Hops & Hall & Hno & Hyes); [|done].
  simpl in Ht, Hops, Hall. split_and!; [done..|].
  rewrite <- app_assoc in Hops. eexists. split; [exact Hops|].
  unfold edits. rewrite omap_app. fold (edits new).
  destruct (decide (cn > food c)%Z) as [Hgt|Hle]; simpl.
  - split_and!; [done..|].
    intros Hc Hok [->|Hin]%elem_of_cons; [|by apply Hyes].
    simplify_eq. lia.
  - rewrite Hsel. destruct (decide (Some n = Some name)) as [[= ->]|Hne]; simpl.
    + split_and!; [by constructor | | done]. intros Hc. simplify_eq. lia.
    + split_and!; [done..|].
      intros Hc Hok [->|Hin]%elem_of_cons; [done | by apply Hyes].
Qed.

(** X21.  Selecting an ant type always records it, but the label follows only
    a type the colony can pay for: the commands of the click write
    nothing but "Ant selected: <name>" into the label, they write it when
    the type is affordable and has a frame, and they leave the label as it
    was when the type costs more than the food of the colony. *)
Theorem label_follows_affordable_selection c name cost frame g r g' :
  assoc name (ant_types c) = Some cost →
  on_click_panel name c frame g = (r, g') →
  ant_type_selected g' = Some name ∧
  ∃ new, ops (canvas g') = ops (canvas g) ++ new ∧
    Forall (λ e, e = (ant_text g, "Ant selected: " +:+ name)) (edits new) ∧
    ((cost > food c)%Z → edits new = []) ∧
    ((cost <= food c)%Z → r = Ok c → name ∈ (ant_type_frames g).*1 → edits new ≠ []).
Proof.
  intros Hcost. unfold on_click_panel, bind at 1, modify at 1.
  unfold bind at 1, _update_control_panel, bind at 1, gets at 1.
  match goal with |- context [for_each ?fr ?body ?g1] =>
    destruct (for_each fr body g1) as [[[]|e] g2] eqn:E;
    (apply (update_panel_loop_run c name cost) in E
       as (Hs & Ht & new & Hops & Hall & Hno & Hyes); [|done..]) end;
    unfold ret; intros [= <- <-]; (split; [done|]); exists new; split_and!; try done.
  intros Hc _. by apply Hyes.
Qed.

(** ** The flight of a leaf *)

Section Flight.
Variable X : Externals.

Lemma py_div_zero a b g : (b == 0)%Q → py_div a b g = (Raise ZeroDivisionError, g).
Proof. intros Hb. unfold py_div. by destruct (Qeq_dec b 0). Qed.

Lemma py_div_nonzero a b g : ¬ (b == 0)%Q → py_div a b g = (Ok (a / b)%Q, g).
Proof. intros Hb. unfold py_div. by destruct (Qeq_dec b 0). Qed.

(** X22.  Without a frame time, or for a duration of zero, the animation stops
    at a division by zero: the polygon has been drawn by then, it is
    neither animated nor ever cleared. *)
Theorem animation_without_frames start end_ duration color g :
  (FRAME_TIME X == 0)%Q ∨ (duration == 0)%Q →
  animate_leaf X start end_ duration color g =
    (Raise ZeroDivisionError,
     set_canvas
       (mkCanvas (S (next_id (canvas g)))
          (ops (canvas g) ++
           [OpDrawPolygon (next_id (canvas g)) (leaf_coords X start 0 40)
                          "DarkGreen" color 1])) g) ∧
  animate_dart X start end_ duration color g =
    (Raise ZeroDivisionError,
     set_canvas
       (mkCanvas (S (next_id (canvas g)))
          (ops (canvas g) ++
           [OpDrawPolygon (next_id (canvas g)) (dart_coords X start 0 40)
                          "DarkGreen" color 1])) g).
Proof.
  intros H.
  assert (¬ (FRAME_TIME X == 0)%Q → (duration / FRAME_TIME X == 0)%Q) as Hn.
  { intros Hf. destruct H as [H|H]; [done|]. rewrite H. by field. }
  split.
  - unfold animate_leaf, bind at 1, draw_polygon, fresh_shape. unfold bind at 1.
    destruct (Qeq_dec (FRAME_TIME X) 0) as [Hf|Hf]; [by rewrite py_div_zero|].
    rewrite py_div_nonzero by done. unfold bind at 1. by rewrite py_div_zero by auto.
  - unfold animate_dart, bind at 1, draw_polygon, fresh_shape. unfold bind at 1.
    destruct (Qeq_dec (FRAME_TIME X) 0) as [Hf|Hf]; [by rewrite py_div_zero|].
    rewrite py_div_nonzero by done. unfold bind at 1. by rewrite py_div_zero by auto.
Qed.

Hypothesis shift_adds : ∀ p d, shift_fpoint X p d = ((p.1 + d.1)%Q, (p.2 + d.2)%Q).




End Flight.

(** ** The end of a turn *)

Lemma polygons_app l1 l2 : polygons (l1 ++ l2) = polygons l1 ++ polygons l2.
Proof. unfold polygons. by rewrite omap_app. Qed.

Lemma clear_commands_app id l1 l2 :
  clear_commands id (l1 ++ l2) = clear_commands id l1 ++ clear_commands id l2.
Proof. unfold clear_commands. by rewrite List.filter_app. Qed.

Lemma cleared_once_nil g : cleared_once g [] g.
Proof.
  split_and!; [by rewrite app_nil_r | done | constructor | |done].
  intros id H. by apply elem_of_nil in H.
Qed.

Lemma cleared_once_app g new1 g1 new2 g2 :
  cleared_once g new1 g1 → cleared_once g1 new2 g2 → cleared_once g (new1 ++ new2) g2.
Proof.
  intros (Ho1 & Hn1 & Hd1 & Hin1 & Hout1) (Ho2 & Hn2 & Hd2 & Hin2 & Hout2).
  split_and!.
  - by rewrite Ho2, Ho1, app_assoc.
  - lia.
  - rewrite polygons_app. apply NoDup_app. split_and!; [done| |done].
    intros id H1%Hin1 H2%Hin2. lia.
  - intros id. rewrite polygons_app, elem_of_app, clear_commands_app.
    intros [H|H].
    + destruct (Hin1 id H) as [Hr [ms Hc]]. split; [lia|]. exists ms.
      rewrite Hc, Hout2; [done|]. intros H2%Hin2. lia.
    + destruct (Hin2 id H) as [Hr [ms Hc]]. split; [lia|]. exists ms.
      rewrite Hc, Hout1; [done|]. intros H1%Hin1. lia.
  - intros id. rewrite polygons_app, elem_of_app, clear_commands_app.
    intros H. rewrite Hout1, Hout2 by tauto. done.
Qed.

Section Throws.
Variable X : Externals.
Variable Md : Model.

Lemma py_div_ok a b g r g' : py_div a b g = (Ok r, g') → g' = g.
Proof. unfold py_div. destruct (Qeq_dec b 0); [done|]. by intros [= _ <-]. Qed.

Lemma animate_leaf_ok start end_ duration color g t g' :
  animate_leaf X start end_ duration color g = (Ok t, g') →
  ∃ cs ms, g' = set_canvas
                  (mkCanvas (S (next_id (canvas g)))
                     (ops (canvas g) ++
                      [OpDrawPolygon (next_id (canvas g)) cs "DarkGreen" color 1;
                       OpAnimateShape (next_id (canvas g)) duration;
                       OpAfterClear ms (next_id (canvas g))])) g.
Proof.
  unfold animate_leaf, bind at 1, draw_polygon, fresh_shape. unfold bind at 1.
  destruct (py_div duration (FRAME_TIME X) _) as [[nf|e] g1] eqn:E1; [|done].
  apply py_div_ok in E1 as ->. unfold bind at 1.
  destruct (py_div (end_.1 - start.1) nf _) as [[ix|e] g1] eqn:E2; [|done].
  apply py_div_ok in E2 as ->. unfold bind at 1.
  destruct (py_div (end_.2 - start.2) nf _) as [[iy|e] g1] eqn:E3; [|done].
  apply py_div_ok in E3 as ->. unfold bind, emit, modify, ret. simpl.
  intros [= <- <-]. eexists _, _. by rewrite <- !app_assoc.
Qed.

Lemma animate_dart_ok start end_ duration color g t g' :
  animate_dart X start end_ duration color g = (Ok t, g') →
  ∃ cs ms, g' = set_canvas
                  (mkCanvas (S (next_id (canvas g)))
                     (ops (canvas g) ++
                      [OpDrawPolygon (next_id (canvas g)) cs "DarkGreen" color 1;
                       OpAnimateShape (next_id (canvas g)) duration;
                       OpAfterClear ms (next_id (canvas g))])) g.
Proof.
  unfold animate_dart, bind at 1, draw_polygon, fresh_shape. unfold bind at 1.
  destruct (py_div duration (FRAME_TIME X) _) as [[nf|e] g1] eqn:E1; [|done].
  apply py_div_ok in E1 as ->. unfold bind at 1.
  destruct (py_div (end_.1 - start.1) nf _) as [[ix|e] g1] eqn:E2; [|done].
  apply py_div_ok in E2 as ->. unfold bind at 1.
  destruct (py_div (end_.2 - start.2) nf _) as [[iy|e] g1] eqn:E3; [|done].
  apply py_div_ok in E3 as ->. unfold bind, emit, modify, ret. simpl.
  intros [= <- <-]. eexists _, _. by rewrite <- !app_assoc.
Qed.

Lemma cleared_once_animation g cs color duration ms :
  cleared_once g
    [OpDrawPolygon (next_id (canvas g)) cs "DarkGreen" color 1;
     OpAnimateShape (next_id (canvas g)) duration;
     OpAfterClear ms (next_id (canvas g))]
    (set_canvas
       (mkCanvas (S (next_id (canvas g)))
          (ops (canvas g) ++
           [OpDrawPolygon (next_id (canvas g)) cs "DarkGreen" color 1;
            OpAnimateShape (next_id (canvas g)) duration;
            OpAfterClear ms (next_id (canvas g))])) g).
Proof.
  split_and!; simpl.
  - done.
  - lia.
  - apply NoDup_singleton.
  - intros id ->%list_elem_of_singleton. split; [lia|]. exists ms.
    unfold clear_commands. simpl. by rewrite bool_decide_eq_true_2.
  - intros id Hid. unfold clear_commands. simpl.
    rewrite bool_decide_eq_false_2; [done|]. intros <-. apply Hid. by left.
Qed.

Lemma throw_cleared_once ant c g g' :
  _throw X Md ant c g = (Ok tt, g') → ∃ new, cleared_once g new g'.
Proof.
  unfold _throw. destruct (nearest_bee Md ant c) as [bee|].
  2:{ intros [= <-]. exists []. apply cleared_once_nil. }
  unfold bind at 1, point_of. destruct (place_points g !! _) as [pa|]; [|done].
  unfold bind at 1. destruct (place_points g !! _) as [pb|]; [|done].
  unfold bind at 1. destruct (assoc (ant_name ant) LEAF_COLORS) as [color|]; [|done].
  unfold ret at 1, bind at 1.
  destruct (animate_leaf X _ _ _ _ g) as [[t|e] g1] eqn:E; [|done].
  apply animate_leaf_ok in E as (cs & ms & ->). intros [= <-].
  eexists. apply cleared_once_animation.
Qed.

Lemma throw_dart_cleared_once ant c g g' :
  _throw_dart X Md ant c g = (Ok tt, g') → ∃ new, cleared_once g new g'.
Proof.
  unfold _throw_dart. destruct (has_target Md ant c).
  2:{ intros [= <-]. exists []. apply cleared_once_nil. }
  unfold bind at 1, point_of.
  destruct (place_points g !! ant_place_name Md ant) as [pa|] eqn:Ea; [|done].
  unfold bind at 1.
  destruct (place_points g !! place_name (hive c)) as [ph|]; [|done].
  unfold bind at 1. rewrite Ea. unfold bind at 1.
  destruct (animate_dart X _ _ _ _ g) as [[t|e] g1] eqn:E; [|done].
  apply animate_dart_ok in E as (cs & ms & ->). intros [= <-].
  eexists. apply cleared_once_animation.
Qed.

(** X24.  Every leaf and every dart of the end of a turn is cleaned up: when
    the throws return, each polygon among the commands they issued is a
    shape of its own and is cleared by exactly one of the timers set. *)
Theorem thrown_shapes_are_cleared c g g' :
  throw_leaves X Md c g = (Ok tt, g') →
  ∃ new,
    ops (canvas g') = ops (canvas g) ++ new ∧
    NoDup (polygons new) ∧
    ∀ id, id ∈ polygons new → ∃ ms, clear_commands id new = [OpAfterClear ms id].
Proof.
  unfold throw_leaves.
  assert (∀ l g g',
    for_each l (λ ant,
      if decide (is_Some (assoc (ant_name ant) LEAF_COLORS)) then _throw X Md ant c
      else if decide (ant_name ant = "Ninja") then _throw_dart X Md ant c
      else ret tt) g = (Ok tt, g') →
    ∃ new, cleared_once g new g') as H.
  { clear. induction l as [|ant l IH]; intros g g' E.
    - simpl in E. unfold ret in E. simplify_eq. exists []. apply cleared_once_nil.
    - rewrite for_each_cons in E.
      match type of E with match ?b with _ => _ end = _ =>
        destruct b as [[[]|e] g1] eqn:Eb; [|done] end.
      apply IH in E as [new2 H2].
      assert (∃ new1, cleared_once g new1 g1) as [new1 H1].
      { repeat case_decide.
        - by eapply throw_cleared_once.
        - by eapply throw_dart_cleared_once.
        - unfold ret in Eb. simplify_eq. exists []. apply cleared_once_nil. }
      exists (new1 ++ new2). by eapply cleared_once_app. }
  intros E. apply H in E as (new & Hops & _ & Hnd & Hin & _).
  exists new. split_and!; [done..|]. intros id Hid. by destruct (Hin id Hid).
Qed.

(** X25.  A turn in which no ant finds a bee throws nothing: when no thrower
    has a nearest bee and no ninja has a target, the end of the turn
    leaves the GUI as it is. *)
Theorem quiet_turn_throws_nothing c g :
  (∀ ant, ant ∈ colony_ants Md c ++ omap ant_ant (colony_ants Md c) →
     (is_Some (assoc (ant_name ant) LEAF_COLORS) → nearest_bee Md ant c = None) ∧
     (ant_name ant = "Ninja" → has_target Md ant c = false)) →
  throw_leaves X Md c g = (Ok tt, g).
Proof.
  intros H. unfold throw_leaves. apply for_each_skip. intros ant [Hl Hn]%H.
  case_decide as Hc.
  - unfold _throw. by rewrite Hl.
  - case_decide as Hd; [|done]. unfold _throw_dart. by rewrite Hn.
Qed.

(** X26.  The throws only draw: the tracker, the layout, the selection and what
    was printed are as before, however the throws end. *)
Theorem throws_only_draw c g :
  let g' := (throw_leaves X Md c g).2 in
  images g' = images g ∧ layout g' = layout g ∧
  ant_type_selected g' = ant_type_selected g ∧ stdout g' = stdout g.
Proof.
  assert (preserves (λ g, (images g, layout g, ant_type_selected g, stdout g))
                    (throw_leaves X Md c)) as H.
  { unfold throw_leaves, _throw, _throw_dart, animate_leaf, animate_dart, py_div,
      draw_polygon, emit.
    repeat preserves_step. }
  specialize (H g). cbv beta in H. injection H as H1 H2 H3 H4 H5 H6.
  intros g'. unfold layout. subst g'. rewrite H1, H2, H3, H4, H5, H6. done.
Qed.
End Throws.

(** ** The further properties at work *)

Import Scenes.

Lemma col_guard_bees : bees_at_one_place col_guard.
Proof.
  intros p q b b' [Hp _] [Hq _] Hb Hb' _. simpl in Hp.
  in_list Hp; simpl in Hb; by apply elem_of_nil in Hb.
Qed.

Lemma pass_converges_witness :
  tracked (images gui_guard) "tunnel_0_0" (AntKey 2) = true ↔
  AntKey 2 ∈ valid_insects (tunnel0 (Some (bodyguard None)) []).
Proof.
  apply (pass_converges ext0 col_guard gui_start gui_guard
           (tunnel0 (Some (bodyguard None)) []) (AntKey 2)).
  - apply (bool_decide_unpack _). by vm_compute.
  - exact col_guard_bees.
  - exact gui_start_tracked_once.
  - exact col_guard_at_home.
  - by vm_compute.
  - split; [|done]. simpl. right. left.
  - done.
Defined.

Lemma retire_slides_to_crypt_witness :
  retire (tunnel1 None []) (BeeKey 1) gui_entered =
    (Ok tt,
     set_canvas
       (mkCanvas (next_id (canvas gui_entered))
          (ops (canvas gui_entered) ++ [OpSlideShape 5 (128, CRYPT)%Z STRATEGY_SECONDS]))
       (set_images (im_pop "tunnel_0_1" (BeeKey 1) (images gui_entered)) gui_entered)).
Proof.
  apply (proj1 (retire_slides_to_crypt (tunnel1 None []) (BeeKey 1) gui_entered 5
                  (128, 180)%Z ltac:(by vm_compute) ltac:(by vm_compute))).
  intros e [= <-]. split; [apply (bool_decide_unpack _)|]; by vm_compute.
Defined.

Lemma passenger_drawn_behind_carrier_witness :
  add_missing_ants ext0 (tunnel0 (Some (bodyguard (Some thrower))) []) gui_guard =
    (Ok tt,
     set_images
       (im_store "tunnel_0_0" (AntKey 1) (next_id (canvas gui_guard)) (images gui_guard))
       (set_canvas
          (mkCanvas (S (next_id (canvas gui_guard)))
             (ops (canvas gui_guard) ++
              [OpDrawImage (next_id (canvas gui_guard))
                 (shift_point ext0 (40, 180)%Z PLACE_PADDING) "img/ant_thrower.gif" 6]))
          gui_guard)).
Proof.
  apply (passenger_drawn_behind_carrier ext0 (tunnel0 (Some (bodyguard (Some thrower))) [])
           (bodyguard (Some thrower)) thrower gui_guard 6 (40, 180)%Z "img/ant_thrower.gif");
    by vm_compute.
Defined.

Lemma new_carrier_with_passenger_fails_witness :
  update_place ext0 col_guard_thrower (tunnel0 (Some (bodyguard (Some thrower))) [])
               gui_start =
    (Raise (KeyError (key_insect (AntKey 2))), gui_start).
Proof.
  apply (new_carrier_with_passenger_fails ext0 col_guard_thrower
           (tunnel0 (Some (bodyguard (Some thrower))) [])
           (bodyguard (Some thrower)) thrower gui_start);
    [done | done | done | apply (bool_decide_unpack _) | ..]; by vm_compute.
Defined.

Lemma arrival_without_image_fails_witness :
  move_bee ext0 col_advanced (tunnel0 None [bee1]) bee1 gui_start =
    (Raise (KeyError (key_insect (BeeKey 1))), gui_start).
Proof.
  apply (arrival_without_image_fails ext0 col_advanced (tunnel0 None [bee1]) bee1 gui_start);
    [| apply (bool_decide_unpack _) |]; by vm_compute.
Defined.

Lemma deploy_click_never_raises_witness :
  (on_click_place ext0 "tunnel_0_0" col_start 0 gui_armed).1 =
    Ok (deploy_ant ext0 "tunnel_0_0" "Thrower" col_start).2.
Proof.
  exact (deploy_click_never_raises ext0 "tunnel_0_0" col_start 0 gui_armed "Thrower"
           (tunnel0 None []) eq_refl ltac:(done) eq_refl).
Defined.

Lemma failed_removal_aborts_dispatch_witness :
  _interpret_click ext_locked (5, 5)%Z col_guard gui_remover =
    (Raise (ModelError "This ant cannot be removed"),
     set_stdout (stdout gui_remover ++ [out_str "colony.remove_ant('tunnel_0_0')"])
                gui_remover).
Proof.
  apply (failed_removal_aborts_dispatch ext_locked (5, 5)%Z col_guard gui_remover
           [rect_far] rect_tunnel [rect_over] "tunnel_0_0"
           (tunnel0 (Some (bodyguard None)) []) (bodyguard None)
           (ModelError "This ant cannot be removed") col_guard);
    [done | by repeat constructor | done..].
Defined.

Lemma turn_keeps_layout_witness :
  ∃ r g', strategy ext0 1 col_entered gui_ready = Some (r, g') ∧
    _click_rectangles g' = _click_rectangles gui_ready ∧
    ant_type_frames g' = ant_type_frames gui_ready ∧
    place_points g' = place_points gui_ready.
Proof.
  destruct (strategy ext0 1 col_entered gui_ready) as [[r g']|] eqn:E;
    [|by vm_compute in E].
  exists r, g'. split; [done|].
  exact (turn_keeps_layout ext0 1 col_entered gui_ready r g' eq_refl E).
Defined.

Lemma turn_lasts_exactly_budget_witness :
  ∃ c' elapsed g',
    strategy_loop ext0 1 col_entered 0 gui_start = Some (Ok (c', elapsed), g') ∧
    (elapsed == STRATEGY_SECONDS)%Q.
Proof.
  destruct (strategy_loop ext0 1 col_entered 0 gui_start) as [[[[c' el]|e] g']|] eqn:E;
    [| by vm_compute in E..].
  exists c', el, g'. split; [done|].
  exact (turn_lasts_exactly_budget ext0 1 col_entered gui_start c' el g'
           ext0_wait_bounded E).
Defined.

Lemma strategy_marks_initialized_witness :
  ∃ e g', strategy ext0 0 col_no_exit gui0 = Some (Raise e, g') ∧ initialized g' = true.
Proof.
  destruct (strategy ext0 0 col_no_exit gui0) as [[[[c' el]|e] g']|] eqn:E;
    [by vm_compute in E | | by vm_compute in E].
  exists e, g'. split; [done|].
  exact (strategy_marks_initialized ext0 0 col_no_exit gui0 (Raise e) g' E).
Defined.

Lemma initialization_registers_callbacks_witness :
  ∃ g', initialize_colony_graphics ext0 col_start gui0 = (Ok tt, g') ∧
    rect_on_click <$> _click_rectangles g' =
      [select_ant_type "Thrower"; click_place "tunnel_0_0"; click_place "tunnel_0_1"] ∧
    ant_type_selected g' = None ∧ wait_calls g' = 1.
Proof.
  destruct (initialize_colony_graphics ext0 col_start gui0) as [[[]|e] g'] eqn:E;
    [|by vm_compute in E].
  exists g'. split; [done|].
  exact (initialization_registers_callbacks ext0 col_start gui0 g' E).
Defined.

Lemma init_places_registers_witness :
  dom (images gui_start) =
    {["AntQueen"; place_name (hive col_start)]} ∪ list_to_set (shown_names col_start) ∧
  dom (place_points gui_start) =
    {[place_name (hive col_start)]} ∪ list_to_set (shown_names col_start) ∧
  rect_on_click <$> _click_rectangles gui_start =
    (rect_on_click <$> _click_rectangles gui0) ++ (click_place <$> shown_names col_start).
Proof.
  apply (init_places_registers ext0 col_start gui0 gui_start). by vm_compute.
Defined.

Lemma init_tracks_hive_bees_witness :
  tracked (images gui_start) "Hive" (BeeKey 1) = true ↔
  "Hive" = place_name (hive col_start) ∧ BeeKey 1 ∈ bee_key <$> place_bees (hive col_start).
Proof.
  apply (init_tracks_hive_bees ext0 col_start gui0 gui_start). by vm_compute.
Defined.

Lemma panel_frames_never_overlap_witness :
  ∃ rects,
    _click_rectangles (_init_control_panel ext0 col_two_types gui0).2 =
      _click_rectangles gui0 ++ rects ∧
    ((_init_control_panel ext0 col_two_types gui0).1 = Ok tt →
     rect_on_click <$> rects = select_ant_type <$> (ant_types col_two_types).*1) ∧
    ∀ pos, length (List.filter (contains pos) rects) ≤ 1.
Proof.
  apply (panel_frames_never_overlap ext0 (λ p d, eq_refl) col_two_types gui0).
  apply surjective_pairing.
Defined.

Lemma label_follows_affordable_selection_witness :
  let out := on_click_panel "Thrower" col_start 0 gui_panel in
  ant_type_selected out.2 = Some "Thrower" ∧
  ∃ new, ops (canvas out.2) = ops (canvas gui_panel) ++ new ∧
    Forall (λ e, e = (ant_text gui_panel, "Ant selected: Thrower")) (edits new) ∧
    ((3 > food col_start)%Z → edits new = []) ∧
    ((3 <= food col_start)%Z → out.1 = Ok col_start →
     "Thrower" ∈ (ant_type_frames gui_panel).*1 → edits new ≠ []).
Proof.
  apply (label_follows_affordable_selection col_start "Thrower" 3 0 gui_panel);
    [reflexivity | apply surjective_pairing].
Defined.

Lemma animation_without_frames_witness :
  animate_leaf ext0 (70, 210)%Q (163, 210)%Q 0 "ForestGreen" gui_start =
    (Raise ZeroDivisionError,
     set_canvas
       (mkCanvas (S (next_id (canvas gui_start)))
          (ops (canvas gui_start) ++
           [OpDrawPolygon (next_id (canvas gui_start))
              (leaf_coords ext0 (70, 210)%Q 0 40) "DarkGreen" "ForestGreen" 1])) gui_start) ∧
  animate_dart ext0 (70, 210)%Q (163, 210)%Q 0 "ForestGreen" gui_start =
    (Raise ZeroDivisionError,
     set_canvas
       (mkCanvas (S (next_id (canvas gui_start)))
          (ops (canvas gui_start) ++
           [OpDrawPolygon (next_id (canvas gui_start))
              (dart_coords ext0 (70, 210)%Q 0 40) "DarkGreen" "ForestGreen" 1])) gui_start).
Proof.
  apply (animation_without_frames ext0 (70, 210)%Q (163, 210)%Q 0 "ForestGreen" gui_start).
  right. reflexivity.
Defined.


Lemma thrown_shapes_are_cleared_witness :
  ∃ g' new,
    throw_leaves ext0 model_near col_thrower gui_start = (Ok tt, g') ∧
    ops (canvas g') = ops (canvas gui_start) ++ new ∧
    NoDup (polygons new) ∧
    ∀ id, id ∈ polygons new → ∃ ms, clear_commands id new = [OpAfterClear ms id].
Proof.
  destruct (throw_leaves ext0 model_near col_thrower gui_start) as [[[]|e] g'] eqn:E;
    [|by vm_compute in E].
  destruct (thrown_shapes_are_cleared ext0 model_near col_thrower gui_start g' E)
    as (new & H).
  by exists g', new.
Defined.

Lemma quiet_turn_throws_nothing_witness :
  throw_leaves ext0 model_quiet col_thrower gui_start = (Ok tt, gui_start).
Proof.
  apply (quiet_turn_throws_nothing ext0 model_quiet col_thrower gui_start).
  intros ant _. by split.
Defined.


